(** * Spacer calculator: inventory ledger, combination search, the
    spacer allocation pipeline and the Snake and Tetris games of
    BK_ShopReady_FinalWithToggles_UISpaced.py.

    Modelling choices.
    - A spacer thickness (a key of the [Counter]s [metal] and [plastic])
      is kept as an integer number of millionths of an inch, so that the
      keys have a decidable Leibniz equality; the inventory's sizes have at
      most four decimals.  Targets, tolerances, knife thicknesses and the
      deflection offset are rationals ([Q]).  The float arithmetic of the
      source is replaced by exact arithmetic.
    - A [collections.Counter] is a [gmap Z Z]; a missing key reads as 0
      ([cget]), and a key stored with count 0 is still present, as in the
      source ([sz in job_metal]).
    - [round(x, 4)] is rounding to the nearest multiple of 100 millionths,
      ties to even (Python's rounding of the exact value). *)

From Stdlib Require Import ZArith QArith String.
From stdpp Require Import base gmap list sorting.

Open Scope Z_scope.

(** ** Counters *)

Abbreviation counter := (gmap Z Z).

(** [c[k]] on a Counter: 0 when the key is missing. *)
Definition cget (c : counter) (k : Z) : Z := default 0 (c !! k).

(** [c[k] -= 1]. *)
Definition cdec (c : counter) (k : Z) : counter := <[k := cget c k - 1]> c.

(** [Counter.__add__]: pointwise sum, keeping only positive counts. *)
Definition counter_add (a b : counter) : counter :=
  filter (fun kv => 0 < kv.2) (union_with (fun x y => Some (x + y)) a b).

(** [Counter.update(iterable)]: add one per occurrence. *)
Definition counter_update (c : counter) (l : list Z) : counter :=
  foldl (fun acc k => <[k := cget acc k + 1]> acc) c l.

(** [Counter(combo)[k]]: multiplicity of [k] in [combo]. *)
Definition count (k : Z) (combo : list Z) : Z :=
  Z.of_nat (count_occ Z.eq_dec combo k).

(** ** Numbers *)

Definition sum_list (l : list Z) : Z := fold_right Z.add 0 l.

(** [round(x, 4)] on a value in millionths. *)
Definition round4 (s : Z) : Z :=
  let q := s / 100 in
  let r := s mod 100 in
  if r <? 50 then q * 100
  else if 50 <? r then (q + 1) * 100
  else if Z.even q then q * 100 else (q + 1) * 100.

(** A value in millionths as inches. *)
Definition to_inches (z : Z) : Q := Qmake z 1000000.

(** ** find_spacer_combo *)

(** [itertools.combinations_with_replacement(pool, r)], in its order:
    all combinations starting with the first element of the pool, then
    those over the rest of the pool. *)
Fixpoint cwr (pool : list Z) (r : nat) : list (list Z) :=
  match pool with
  | [] => match r with O => [[]] | S _ => [] end
  | x :: xs =>
      (fix go (r : nat) : list (list Z) :=
         match r with
         | O => [[]]
         | S r' => map (cons x) (go r') ++ cwr xs r
         end) r
  end.

(** Descending order on thicknesses, for [sorted(..., reverse=True)]. *)
Definition desc (x y : Z) : Prop := y <= x.
#[global] Instance desc_dec : RelDecision desc :=
  fun x y => Z_le_dec y x.

(** [sorted([k for k, v in inv.items() if v > 0], reverse=True)]. *)
Definition positive_keys (inv : counter) : list Z :=
  merge_sort desc (map fst (filter (fun kv => 0 < kv.2) (map_to_list inv))).

(** The first [Some] produced by [f] along [l]: a [for] loop that
    [return]s. *)
Fixpoint first_some {A B} (f : A -> option B) (l : list A) : option B :=
  match l with
  | [] => None
  | a :: l' => match f a with Some b => Some b | None => first_some f l' end
  end.

(** [(target - tol_minus) <= total <= (target + tol_plus)]. *)
Definition in_band (target tol_plus tol_minus total : Q) : bool :=
  Qle_bool (target - tol_minus) total && Qle_bool total (target + tol_plus).

(** The acceptance test of a candidate against the inventory view [avail]:
    [total = round(sum(combo), 4)], the band check, then
    [all(tmp[k] <= avail[k] for k in tmp)] with [tmp = Counter(combo)]
    (iterating over the combo's elements visits the same keys). *)
Definition accept (target tol_plus tol_minus : Q) (avail : counter)
    (combo : list Z) : bool :=
  in_band target tol_plus tol_minus (to_inches (round4 (sum_list combo))) &&
  forallb (fun k => count k combo <=? cget avail k) combo.

(** [for r in range(1, max_stack+1): for combo in cwr(keys, r): ...]. *)
Definition search_pass (keys : list Z) (target tol_plus tol_minus : Q)
    (avail : counter) (max_stack : nat) : option (list Z) :=
  first_some
    (fun r => first_some
                (fun combo => if accept target tol_plus tol_minus avail combo
                              then Some combo else None)
                (cwr keys r))
    (seq 1 max_stack).

(** [find_spacer_combo]: [Some (combo, True)] from the metal pass,
    [Some (combo, False)] from the metal+plastic pass, [None] for
    [(None, None)].  [minimize_shims] and [smart_balance] are the values
    read from the two toggle variables at the start of the function. *)
Definition find_spacer_combo (minimize_shims smart_balance : Z)
    (target tol_plus tol_minus : Q) (metal_inv plastic_inv : counter)
    (prefer_metal : bool) (max_stack : nat) : option (list Z * bool) :=
  let keys_metal := positive_keys metal_inv in
  let keys_all := positive_keys (counter_add metal_inv plastic_inv) in
  let metal_pass :=
    if prefer_metal
    then search_pass keys_metal target tol_plus tol_minus metal_inv max_stack
    else None in
  match metal_pass with
  | Some combo => Some (combo, true)
  | None =>
      match search_pass keys_all target tol_plus tol_minus
              (counter_add metal_inv plastic_inv) max_stack with
      | Some combo => Some (combo, false)
      | None => None
      end
  end.

(** ** The inventory ledger: [SpacerInventory] *)

Record SpacerInventory := mkInventory {
  metal : counter;
  plastic : counter
}.

Inductive ledger_error := NoInventoryLeft (sz : Z).

(** The loop of [use_spacers]: each size is taken from [metal] when its
    count there is positive, else from [plastic] when positive there, else
    [ValueError] is raised with the counters as they are at that point. *)
Fixpoint use_spacers_loop (m p : counter) (combo : list Z)
    : counter * counter * option ledger_error :=
  match combo with
  | [] => (m, p, None)
  | sz :: rest =>
      if 0 <? cget m sz then use_spacers_loop (cdec m sz) p rest
      else if 0 <? cget p sz then use_spacers_loop m (cdec p sz) rest
      else (m, p, Some (NoInventoryLeft sz))
  end.

(** [SpacerInventory.use_spacers]; the unused [inv = self.metal +
    self.plastic] has no effect, and [self.save()] (reached only on
    success) writes the counters to the inventory file. *)
Definition use_spacers (inv : SpacerInventory) (combo : list Z)
    : SpacerInventory * option ledger_error :=
  let '(m, p, err) := use_spacers_loop (metal inv) (plastic inv) combo in
  (mkInventory m p, err).

(** ** get_deflection_offset *)

(** [thickness] is already a float at the only call site, so [float()]
    does not raise and the [except] branch is not reached. *)
Definition get_deflection_offset (material : string) (thickness : Q) : Q :=
  if String.eqb material "Aluminum" then (5 # 10000)%Q
  else if String.eqb material "Galvanized" || String.eqb material "Stainless"
  then (if negb (Qle_bool thickness (3 # 100)) then (15 # 10000)%Q else (10 # 10000)%Q)
  else 0%Q.

(** ** The calculation pipeline: [calculate_spacers] *)

(** The output lines, with the numbers and combos that the source formats
    into strings. *)
Inductive line :=
| ShoulderLine (target : Q) (combo : list Z)
| FemaleLine (i : nat) (female_sum : Q) (combo : list Z)
| MaleLine (i : nat) (male_target : Q) (combo : list Z).

(** The application object, restricted to the attributes the pipeline
    reads or writes. *)
Record SpacerCalculatorApp := mkApp {
  inventory : SpacerInventory;
  top_lines : list line;
  bottom_lines : list line;
  used_spacers : counter;
  minimize_shims_var : Z;
  smart_balance_var : Z
}.

Definition set_lines (a : SpacerCalculatorApp) (top bottom : list line) : SpacerCalculatorApp :=
  mkApp (inventory a) top bottom (used_spacers a)
    (minimize_shims_var a) (smart_balance_var a).

Definition set_used (a : SpacerCalculatorApp) (u : counter) : SpacerCalculatorApp :=
  mkApp (inventory a) (top_lines a) (bottom_lines a) u
    (minimize_shims_var a) (smart_balance_var a).

(** The parsed form fields of a job; [cuts] is the cut list after the
    ["WxN"] tokens are expanded. *)
Record job := mkJob {
  cuts : list Q;
  thickness : Q;
  clearance_pct : Q;
  knife_female : Q;
  knife_male : Q;
  tol_plus : Q;
  tol_minus : Q;
  material : string;
  auto_deflect : bool
}.

Inductive calc_error :=
| NoShoulder
| NoFemale (cut : Q)
| NoMale (cut : Q).

(** The working state of a run: [self] and the local copies [job_metal],
    [job_plastic]. *)
Record run_state := mkRun {
  self : SpacerCalculatorApp;
  job_metal : counter;
  job_plastic : counter
}.

(** [self.find_spacer_combo(...)], reading the toggles from [self]. *)
Definition find_in (a : SpacerCalculatorApp) (target tp tm : Q) (m p : counter)
    : option (list Z * bool) :=
  find_spacer_combo (minimize_shims_var a) (smart_balance_var a)
    target tp tm m p true 8.

(** [if not combo: raise ...]: [None] and [[]] are both falsy. *)
Definition truthy (r : option (list Z * bool)) : option (list Z) :=
  match r with
  | Some (c :: cs, _) => Some (c :: cs)
  | _ => None
  end.

(** The shoulder decrement: [if sz in job_metal: job_metal[sz] -= 1
    elif sz in job_plastic: job_plastic[sz] -= 1]. *)
Definition dec_shoulder (mp : counter * counter) (combo : list Z)
    : counter * counter :=
  foldl (fun '(m, p) sz =>
           if bool_decide (is_Some (m !! sz)) then (cdec m sz, p)
           else if bool_decide (is_Some (p !! sz)) then (m, cdec p sz)
           else (m, p)) mp combo.

(** [sz in c and c[sz] > 0]. *)
Definition has_positive (c : counter) (sz : Z) : bool :=
  match c !! sz with Some v => 0 <? v | None => false end.

(** The per-cut decrement: [if sz in job_metal and job_metal[sz] > 0: ...
    elif sz in job_plastic and job_plastic[sz] > 0: ...]. *)
Definition dec_cut (mp : counter * counter) (combo : list Z)
    : counter * counter :=
  foldl (fun '(m, p) sz =>
           if has_positive m sz then (cdec m sz, p)
           else if has_positive p sz then (m, cdec p sz)
           else (m, p)) mp combo.

(** The shoulder stage. *)
Definition shoulder_stage (j : job) (clearance : Q) (rs : run_state)
    : run_state * option calc_error :=
  let a := self rs in
  let shoulder_clearance := (clearance + knife_female j)%Q in
  match truthy (find_in a shoulder_clearance (1 # 1000) (1 # 1000)
                  (job_metal rs) (job_plastic rs)) with
  | None => (rs, Some NoShoulder)
  | Some s_combo =>
      let '(m, p) := dec_shoulder (job_metal rs, job_plastic rs) s_combo in
      let a1 := set_used a (counter_update (used_spacers a) s_combo) in
      let a2 := set_lines a1 (top_lines a1)
                  (bottom_lines a1 ++ [ShoulderLine shoulder_clearance s_combo]) in
      (mkRun a2 m p, None)
  end.

(** One iteration of [for i, cut in enumerate(cuts, 1)]; [d] is the
    deflection offset of the run. *)
Definition cut_step (j : job) (d clearance : Q) (i : nat) (cut : Q)
    (rs : run_state) : run_state * option calc_error :=
  let a := self rs in
  let female_on_top := Nat.eqb (Nat.modulo i 2) 1 in
  match truthy (find_in a cut (tol_plus j) (tol_minus j)
                  (job_metal rs) (job_plastic rs)) with
  | None => (rs, Some (NoFemale cut))
  | Some female_combo =>
      let '(m1, p1) := dec_cut (job_metal rs, job_plastic rs) female_combo in
      let a1 := set_used a (counter_update (used_spacers a) female_combo) in
      let female_sum := (to_inches (sum_list female_combo) + d)%Q in
      let male_target :=
        (female_sum - (knife_female j + knife_male j + 2 * clearance))%Q in
      match truthy (find_in a1 male_target (1 # 1000) (1 # 1000) m1 p1) with
      | None => (mkRun a1 m1 p1, Some (NoMale cut))
      | Some male_combo =>
          let '(m2, p2) := dec_cut (m1, p1) male_combo in
          let a2 := set_used a1 (counter_update (used_spacers a1) male_combo) in
          let fl := FemaleLine i female_sum female_combo in
          let ml := MaleLine i male_target male_combo in
          let a3 :=
            if female_on_top
            then set_lines a2 (top_lines a2 ++ [fl]) (bottom_lines a2 ++ [ml])
            else set_lines a2 (top_lines a2 ++ [ml]) (bottom_lines a2 ++ [fl]) in
          (mkRun a3 m2 p2, None)
      end
  end.

Fixpoint cut_loop (j : job) (d clearance : Q) (i : nat) (cs : list Q)
    (rs : run_state) : run_state * option calc_error :=
  match cs with
  | [] => (rs, None)
  | cut :: rest =>
      match cut_step j d clearance i cut rs with
      | (rs', Some e) => (rs', Some e)
      | (rs', None) => cut_loop j d clearance (S i) rest rs'
      end
  end.

(** [deflect_offset] of a run: 0 unless the toggle is on. *)
Definition run_deflect_offset (j : job) : Q :=
  if auto_deflect j then get_deflection_offset (material j) (thickness j)
  else 0%Q.

(** The body of the [try] block up to the end of the cut loop; the final
    working state is returned also when a stage raises.  Scrap, settings
    and drawing come after the loop and touch neither the counters nor the
    lines. *)
Definition run_spacers (a : SpacerCalculatorApp) (j : job) : run_state * option calc_error :=
  let a0 := set_used (set_lines a [] []) ∅ in
  let clearance := (thickness j * (clearance_pct j / 100))%Q in
  let d := run_deflect_offset j in
  let rs0 := mkRun a0 (metal (inventory a0)) (plastic (inventory a0)) in
  match shoulder_stage j clearance rs0 with
  | (rs1, Some e) => (rs1, Some e)
  | (rs1, None) => cut_loop j d clearance 1 (cuts j) rs1
  end.

(** [calculate_spacers]: the application object after the run, and the
    error shown in the message box, if any. *)
Definition calculate_spacers (a : SpacerCalculatorApp) (j : job) : SpacerCalculatorApp * option calc_error :=
  let '(rs, e) := run_spacers a j in (self rs, e).

(** All output lines of the application object. *)
Definition all_lines (a : SpacerCalculatorApp) : list line :=
  top_lines a ++ bottom_lines a.

(** Every male line has the female line of its cut, with the female sum
    [sum(combo) + d] and the male target derived from it, and its combo is
    a result of the search at that target with tolerance (0.001, 0.001). *)
Definition male_lines_ok (j : job) (ms sb : Z) (d clearance : Q)
    (lines : list line) : Prop :=
  forall i mt mc, In (MaleLine i mt mc) lines ->
  exists fs fc, In (FemaleLine i fs fc) lines /\
    fs = (to_inches (sum_list fc) + d)%Q /\
    mt = (fs - (knife_female j + knife_male j + 2 * clearance))%Q /\
    exists m p b,
      find_spacer_combo ms sb mt (1 # 1000) (1 # 1000) m p true 8
      = Some (mc, b).

(** [SpacerInventory.check_availability]: [inv = self.metal + self.plastic],
    then [test[sz] > inv[sz]] for some [sz] of [test = Counter(combo)] gives
    [False] (iterating over the combo's elements visits the same keys). *)
Definition check_availability (inv : SpacerInventory) (combo : list Z) : bool :=
  let u := counter_add (metal inv) (plastic inv) in
  forallb (fun sz => count sz combo <=? cget u sz) combo.

(** Where cut [i] puts its lines: the female line on top for an odd [i]
    and the male line below it, the other way round for an even [i]. *)
Definition top_ok (i : nat) (l : line) : Prop :=
  match l with
  | FemaleLine i' _ _ => i' = i /\ Nat.odd i = true
  | MaleLine i' _ _ => i' = i /\ Nat.odd i = false
  | ShoulderLine _ _ => False
  end.

Definition bottom_ok (i : nat) (l : line) : Prop :=
  match l with
  | FemaleLine i' _ _ => i' = i /\ Nat.odd i = false
  | MaleLine i' _ _ => i' = i /\ Nat.odd i = true
  | ShoulderLine _ _ => False
  end.

(** The lines after [n] cuts: one per cut on top, and below the shoulder
    line one per cut, in the order of the cuts. *)
Definition layout_ok (n : nat) (a : SpacerCalculatorApp) : Prop :=
  Forall2 top_ok (seq 1 n) (top_lines a) /\
  exists t s B, bottom_lines a = ShoulderLine t s :: B /\
                Forall2 bottom_ok (seq 1 n) B.

(** The spacers a line shows. *)
Definition line_combo (l : line) : list Z :=
  match l with
  | ShoulderLine _ c | FemaleLine _ _ c | MaleLine _ _ c => c
  end.

(** ** The Snake game of [_play_snake] *)

Definition grid_size : Z := 17.

(** The closure state of the game: [snake], [direction], [food],
    [score[0]], [running[0]], [highscore[0]], and the content of the
    high-score file ([None] when it is missing or does not hold an
    integer). *)
Record snake_state := mkSnake {
  snake : list (Z * Z);
  direction : Z * Z;
  food : Z * Z;
  score : Z;
  running : bool;
  highscore : Z;
  hs_file : option Z
}.

(** [_load_snake_highscore]: the file's integer, 0 on any exception. *)
Definition load_snake_highscore (file : option Z) : Z :=
  match file with Some n => n | None => 0 end.

(** [_save_snake_highscore]: the file after the call. *)
Definition save_snake_highscore (file : option Z) (sc : Z) : option Z :=
  let hs := load_snake_highscore file in
  if hs <? sc then Some sc else file.

(** [on_key]: the new [direction] after key [key]. *)
Definition snake_on_key (key : string) (d : Z * Z) : Z * Z :=
  if String.eqb key "Up" && bool_decide (d <> (0, 1)) then (0, -1)
  else if String.eqb key "Down" && bool_decide (d <> (0, -1)) then (0, 1)
  else if String.eqb key "Left" && bool_decide (d <> (1, 0)) then (-1, 0)
  else if String.eqb key "Right" && bool_decide (d <> (-1, 0)) then (1, 0)
  else d.

(** The [while True] loop that places new food: the first of the random
    cells [draws] that is not on the snake; [None] when every cell of
    [draws] is on it (the loop is still drawing). *)
Definition place_food (draws : list (Z * Z)) (s : list (Z * Z)) : option (Z * Z) :=
  first_some (fun f => if bool_decide (f ∈ s) then None else Some f) draws.

(** One call of [move] (without the drawing and the rescheduling);
    [draws] are the results of [random.randint] for the food loop.
    [None] when the loop does not stop within [draws], or on an empty
    snake, where [snake[0]] raises. *)
Definition snake_move (draws : list (Z * Z)) (st : snake_state) : option snake_state :=
  if negb (running st) then Some st else
  match snake st with
  | [] => None
  | (x, y) :: _ =>
      let '(dx, dy) := direction st in
      let nh := ((x + dx) mod grid_size, (y + dy) mod grid_size) in
      if bool_decide (nh ∈ snake st) then
        let better := highscore st <? score st in
        Some (mkSnake (snake st) (direction st) (food st) (score st) false
                (if better then score st else highscore st)
                (if better then save_snake_highscore (hs_file st) (score st)
                 else hs_file st))
      else
        let s1 := nh :: snake st in
        if bool_decide (nh = food st) then
          match place_food draws s1 with
          | None => None
          | Some f => Some (mkSnake s1 (direction st) f (score st + 1)
                              (running st) (highscore st) (hs_file st))
          end
        else
          Some (mkSnake (removelast s1) (direction st) (food st) (score st)
                  (running st) (highscore st) (hs_file st))
  end.

(** A snake of distinct cells, all on the grid. *)
Definition snake_wf (st : snake_state) : Prop :=
  snake st <> [] /\ NoDup (snake st) /\
  Forall (fun '(x, y) => 0 <= x < grid_size /\ 0 <= y < grid_size) (snake st).

(** ** The Tetris game of [_play_tetris] *)

Definition cols : Z := 10.
Definition rows : Z := 20.

(** A cell of [grid]: [0] or a colour string. *)
Inductive cell := Empty | Filled (c : string).

(** Python truthiness of a cell. *)
Definition cell_truthy (c : cell) : bool :=
  match c with Empty => false | Filled s => negb (String.eqb s "") end.

Abbreviation grid := (list (list cell)).

(** [grid[y][x]] as a truth value; the indices are in range at every use
    on a grid of [rows] rows of [cols] cells. *)
Definition grid_at (g : grid) (y x : Z) : bool :=
  match g !! Z.to_nat y with
  | Some row => match row !! Z.to_nat x with Some c => cell_truthy c | None => false end
  | None => false
  end.

Record piece := mkPiece {
  coords : list (Z * Z);
  color : string;
  shape_idx : nat
}.

Definition shapes : list (list (Z * Z)) :=
  [[(0,0); (1,0); (2,0); (3,0)];
   [(0,0); (1,0); (1,1); (2,1)];
   [(1,0); (2,0); (0,1); (1,1)];
   [(0,0); (0,1); (1,1); (2,1)];
   [(2,0); (0,1); (1,1); (2,1)];
   [(0,0); (1,0); (0,1); (1,1)];
   [(1,0); (0,1); (1,1); (2,1)]].

Definition colors : list string :=
  ["#bbbbbb"; "#3a6edc"; "#d13b2b"; "#f0e130"; "#f5b042"; "#91d5ed"; "#fa85c3"]%string.

(** [new_piece] with [shape_idx] the result of [random.randint]. *)
Definition new_piece (idx : nat) : piece :=
  mkPiece (map (fun '(x, y) => (x + 3, y)) (nth idx shapes []))
    (nth idx colors ""%string) idx.

(** [can_move(dx, dy)]. *)
Definition can_move (g : grid) (p : piece) (dx dy : Z) : bool :=
  forallb (fun '(x, y) =>
             let nx := x + dx in let ny := y + dy in
             negb ((nx <? 0) || (cols <=? nx) || (rows <=? ny)) &&
             negb ((0 <=? ny) && grid_at g ny nx)) (coords p).

(** [move_piece(dx, dy)]: its result and the piece after the call. *)
Definition move_piece (g : grid) (p : piece) (dx dy : Z) : bool * piece :=
  if can_move g p dx dy
  then (true, mkPiece (map (fun '(x, y) => (x + dx, y + dy)) (coords p))
                (color p) (shape_idx p))
  else (false, p).

(** The loop of [rotate_piece] computing [new_coords]: a quarter turn about
    the first cell. *)
Definition rotate_coords (cs : list (Z * Z)) : list (Z * Z) :=
  match cs with
  | [] => []
  | (px, py) :: _ =>
      map (fun '(x, y) => let relx := x - px in let rely := y - py in
                          (px - rely, py + relx)) cs
  end.

(** [rotate_piece]: the piece after the call; [None] for a piece with no
    cell, where [piece["coords"][0]] raises. *)
Definition rotate_piece (g : grid) (p : piece) : option piece :=
  if Nat.eqb (shape_idx p) 5 then Some p else
  match coords p with
  | [] => None
  | _ :: _ =>
      let nc := rotate_coords (coords p) in
      if forallb (fun '(x, y) => (0 <=? x) && (x <? cols) && (y <? rows) &&
                                 ((y <? 0) || negb (grid_at g y x))) nc
      then Some (mkPiece nc (color p) (shape_idx p))
      else Some p
  end.

(** [grid[y][x] = c] for [y >= 0]; the indices are in range for a piece in
    a legal position. *)
Definition place_cell (g : grid) (c : cell) (xy : Z * Z) : grid :=
  let '(x, y) := xy in
  if 0 <=? y then
    match g !! Z.to_nat y with
    | Some row => <[Z.to_nat y := <[Z.to_nat x := c]> row]> g
    | None => g
    end
  else g.

(** [all(grid[y][x] for x in range(cols))]. *)
Definition row_full (g : grid) (y : nat) : bool :=
  match g !! y with
  | Some row => forallb (fun x => match row !! x with
                                  | Some c => cell_truthy c | None => false end)
                        (seq 0 (Z.to_nat cols))
  | None => false
  end.

(** The loop [for y in reversed(range(rows))] of [freeze_piece], with the
    count [lines]. *)
Fixpoint clear_rows (ys : list nat) (g : grid) (lines : nat) : grid * nat :=
  match ys with
  | [] => (g, lines)
  | y :: ys' =>
      if row_full g y
      then clear_rows ys' (repeat Empty (Z.to_nat cols) :: delete y g) (S lines)
      else clear_rows ys' g lines
  end.

Definition clear_full_rows (g : grid) : grid * nat :=
  clear_rows (rev (seq 0 (Z.to_nat rows))) g 0.

Record tetris_state := mkTetris {
  tgrid : grid;
  tpiece : piece;
  tnext : piece;
  tscore : Z;
  trunning : bool
}.

(** [freeze_piece], with [idx] the shape drawn by [new_piece()]; [None]
    when [[0, 40, 100, 300, 1200][lines]] raises. *)
Definition freeze_piece (idx : nat) (st : tetris_state) : option tetris_state :=
  let p := tpiece st in
  let g1 := foldl (fun g xy => place_cell g (Filled (color p)) xy) (tgrid st) (coords p) in
  let '(g2, lines) := clear_full_rows g1 in
  match nth_error [0; 40; 100; 300; 1200] lines with
  | None => None
  | Some pts =>
      let p' := tnext st in
      Some (mkTetris g2 p' (new_piece idx) (tscore st + pts)
              (trunning st && can_move g2 p' 0 0))
  end.

(** A grid of [rows] rows of [cols] cells. *)
Definition grid_dims (g : grid) : Prop :=
  length g = Z.to_nat rows /\ Forall (fun r => length r = Z.to_nat cols) g.

(** The inventory of the material-preference example: metal
    [{0.125: 1}], plastic [{0.125: 5}]. *)
Definition pref_inventory : SpacerInventory :=
  mkInventory (<[125000 := 1]> ∅) (<[125000 := 5]> ∅).

(** A small job for the pipeline: metal [{0.5: 2, 0.25: 3}], knives of
    0.25, no clearance, one cut of 0.75. *)
Definition demo_app : SpacerCalculatorApp :=
  mkApp (mkInventory (<[500000 := 2]> (<[250000 := 3]> ∅)) ∅) [] [] ∅ 1 1.

Definition demo_job : job :=
  mkJob [3 # 4] 0 0 (1 # 4) (1 # 4) (1 # 1000) (1 # 1000) "Aluminum" false.

Example ex_cwr : cwr [3; 2; 1] 2 = [[3;3];[3;2];[3;1];[2;2];[2;1];[1;1]].
Proof. reflexivity. Qed.

Example ex_find :
  find_spacer_combo 1 1 (3#4) (1#1000) (1#1000)
    (<[500000 := 2]> (<[250000 := 1]> ∅)) ∅ true 8
  = Some ([500000; 250000], true).
Proof. vm_compute. reflexivity. Qed.

(** ** Lemmas on the search *)

Section FirstSome.
Context {A B : Type}.

Lemma first_some_Some (f : A -> option B) (l : list A) (b : B) :
  first_some f l = Some b -> exists a, In a l /\ f a = Some b.
Proof.
  induction l as [|a l IH]; simpl; [discriminate|].
  destruct (f a) eqn:Ha; intros H.
  - inversion H; subst. eauto.
  - destruct (IH H) as (a' & ? & ?). eauto.
Qed.

Lemma first_some_None (f : A -> option B) (l : list A) :
  first_some f l = None -> forall a, In a l -> f a = None.
Proof.
  induction l as [|a l IH]; simpl; [tauto|].
  destruct (f a) eqn:Ha; [discriminate|].
  intros H a' [<-|Hin]; auto.
Qed.

End FirstSome.

Lemma first_some_seq {B} (f : nat -> option B) (s n : nat) (b : B) :
  first_some f (seq s n) = Some b ->
  exists r : nat, (s <= r < s + n)%nat /\ f r = Some b /\
            forall r' : nat, (s <= r' < r)%nat -> f r' = None.
Proof.
  revert s. induction n as [|n IH]; intros s; simpl; [discriminate|].
  destruct (f s) eqn:Hs; intros H.
  - inversion H; subst. exists s. split; [lia|]. split; [done|]. lia.
  - destruct (IH (S s) H) as (r & Hr & Hf & Hbefore).
    exists r. split; [lia|]. split; [done|].
    intros r' Hr'. destruct (decide (r' = s)) as [->|Hne]; [done|].
    apply Hbefore. lia.
Qed.

Lemma first_some_filter (p : list Z -> bool) (l : list (list Z)) :
  first_some (fun c => if p c then Some c else None) l = head (List.filter p l).
Proof.
  induction l as [|c l IH]; simpl; [done|].
  destruct (p c); simpl; auto.
Qed.

Lemma first_some_concat {A B} (f : A -> option B) (g : nat -> list A)
    (rs : list nat) :
  first_some (fun r => first_some f (g r)) rs = first_some f (concat (map g rs)).
Proof.
  induction rs as [|r rs IH]; simpl; [done|].
  induction (g r) as [|a l IHl]; simpl; [done|].
  destruct (f a); auto.
Qed.

(** *** combinations_with_replacement *)

Lemma cwr_cons_eq (x : Z) (xs : list Z) (r : nat) :
  cwr (x :: xs) (S r) = map (cons x) (cwr (x :: xs) r) ++ cwr xs (S r).
Proof. reflexivity. Qed.

Lemma cwr_cons_0 (x : Z) (xs : list Z) : cwr (x :: xs) 0 = [[]].
Proof. reflexivity. Qed.

Lemma cwr_nil_0 (l : list Z) : cwr l 0 = [[]].
Proof. destruct l; reflexivity. Qed.

Lemma cwr_length (l : list Z) : forall r c, In c (cwr l r) -> length c = r.
Proof.
  induction l as [|x xs IH]; intros r.
  - destruct r; simpl; [intros c [<-|[]]; done | tauto].
  - induction r as [|r IHr]; intros c.
    + rewrite cwr_cons_0. intros [<-|[]]. done.
    + rewrite cwr_cons_eq, in_app_iff, in_map_iff.
      intros [(c' & <- & Hc')|Hc].
      * simpl. f_equal. auto.
      * auto.
Qed.

(** Prefixing [n] copies of the head of the pool. *)
Lemma cwr_repeat (x : Z) (xs : list Z) (n : nat) (c : list Z) :
  In c (cwr xs (length c)) ->
  In (repeat x n ++ c) (cwr (x :: xs) (n + length c)).
Proof.
  intros Hc. induction n as [|n IH]; cbn [repeat app Nat.add].
  - destruct c as [|k c'].
    + left. done.
    + cbn [length] in *. rewrite cwr_cons_eq, in_app_iff. right. done.
  - rewrite cwr_cons_eq, in_app_iff, in_map_iff. left. eauto.
Qed.

Lemma perm_repeat_filter (x : Z) (c : list Z) :
  Permutation c
    (repeat x (count_occ Z.eq_dec c x) ++ List.filter (fun y => negb (Z.eqb y x)) c).
Proof.
  induction c as [|y c IH]; simpl; [done|].
  destruct (Z.eq_dec y x) as [->|Hne].
  - rewrite Z.eqb_refl. simpl. constructor. done.
  - rewrite (proj2 (Z.eqb_neq y x) Hne). simpl.
    rewrite IH at 1. apply Permutation_middle.
Qed.

(** Every list over the pool is, up to order, one of the enumerated
    combinations of its length. *)
Lemma cwr_complete (l : list Z) :
  forall c, (forall k, In k c -> In k l) ->
  exists c', In c' (cwr l (length c)) /\ Permutation c c'.
Proof.
  induction l as [|x xs IH]; intros c Hc.
  - destruct c as [|k c]; [|destruct (Hc k (or_introl eq_refl))].
    exists []. simpl. auto.
  - set (rest := List.filter (fun y => negb (Z.eqb y x)) c).
    destruct (IH rest) as (c' & Hin & Hperm).
    { intros k Hk. unfold rest in Hk. apply filter_In in Hk as [Hk Hneq].
      destruct (Hc k Hk) as [->|Hxs]; [|done].
      rewrite Z.eqb_refl in Hneq. discriminate. }
    exists (repeat x (count_occ Z.eq_dec c x) ++ c').
    pose proof (perm_repeat_filter x c) as Hp. fold rest in Hp.
    assert (length c = count_occ Z.eq_dec c x + length c')%nat as ->.
    { rewrite (Permutation_length Hp), length_app, repeat_length.
      rewrite (Permutation_length Hperm). done. }
    split.
    + apply cwr_repeat. rewrite <- (Permutation_length Hperm). done.
    + rewrite Hp at 1. apply Permutation_app_head. done.
Qed.

(** *** Keys, counts and acceptance *)

Lemma positive_keys_spec (inv : counter) (k : Z) :
  In k (positive_keys inv) <-> 0 < cget inv k.
Proof.
  unfold positive_keys, cget.
  split.
  - intros Hin.
    apply (Permutation_in _ (merge_sort_Permutation desc _)) in Hin.
    apply in_map_iff in Hin as ([k' v] & Hk & Hin). simpl in Hk; subst k'.
    apply list_elem_of_In, list_elem_of_filter in Hin as [Hv Hin].
    apply elem_of_map_to_list in Hin. rewrite Hin. done.
  - intros Hpos. destruct (inv !! k) as [v|] eqn:Hk; simpl in Hpos; [|lia].
    apply (Permutation_in _ (symmetry (merge_sort_Permutation desc _))).
    apply in_map_iff. exists (k, v). split; [done|].
    apply list_elem_of_In, list_elem_of_filter. split; [done|].
    apply elem_of_map_to_list. done.
Qed.

Lemma sum_list_perm (c c' : list Z) : Permutation c c' -> sum_list c = sum_list c'.
Proof. induction 1; simpl; lia. Qed.

Lemma count_perm (c c' : list Z) (k : Z) :
  Permutation c c' -> count k c = count k c'.
Proof.
  intros H. unfold count. f_equal. apply Permutation_count_occ. done.
Qed.

Lemma forallb_perm (f : Z -> bool) (l l' : list Z) :
  Permutation l l' -> forallb f l = forallb f l'.
Proof.
  induction 1; simpl; try congruence.
  - destruct (f x), (f y); done.
Qed.

Lemma forallb_pointwise (f g : Z -> bool) (l : list Z) :
  (forall x, f x = g x) -> forallb f l = forallb g l.
Proof. intros Hfg. induction l; simpl; congruence. Qed.

(** Acceptance depends on the combo as a multiset only. *)
Lemma accept_perm (target tp tm : Q) (avail : counter) (c c' : list Z) :
  Permutation c c' -> accept target tp tm avail c = accept target tp tm avail c'.
Proof.
  intros H. unfold accept. rewrite (sum_list_perm c c' H). f_equal.
  rewrite (forallb_perm _ c c' H).
  apply forallb_pointwise. intros k. rewrite (count_perm c c' k H). done.
Qed.

Lemma accept_avail (target tp tm : Q) (avail : counter) (c : list Z) (k : Z) :
  accept target tp tm avail c = true -> In k c -> count k c <= cget avail k.
Proof.
  unfold accept. intros [_ Hall]%andb_prop Hin.
  rewrite forallb_forall in Hall. apply Z.leb_le, Hall, Hin.
Qed.

Lemma count_pos (c : list Z) (k : Z) : In k c -> 0 < count k c.
Proof.
  intros Hin. unfold count. apply (count_occ_In Z.eq_dec) in Hin. lia.
Qed.

(** An accepted combo uses only denominations with a positive count. *)
Lemma accept_in_keys (target tp tm : Q) (avail : counter) (c : list Z) :
  accept target tp tm avail c = true ->
  forall k, In k c -> In k (positive_keys avail).
Proof.
  intros Hacc k Hin. apply positive_keys_spec.
  pose proof (accept_avail _ _ _ _ _ k Hacc Hin).
  pose proof (count_pos c k Hin). lia.
Qed.

(** *** One pass of the search *)

Section Pass.
Variables (target tp tm : Q) (avail : counter) (max_stack : nat).

Let keys := positive_keys avail.
Let cand (r : nat) : option (list Z) :=
  first_some (fun combo => if accept target tp tm avail combo
                           then Some combo else None) (cwr keys r).

Lemma cand_None (r : nat) :
  cand r = None -> forall c, length c = r -> accept target tp tm avail c = false.
Proof.
  intros Hr c Hlen. destruct (accept target tp tm avail c) eqn:Hacc; [|done].
  destruct (cwr_complete keys c (accept_in_keys _ _ _ _ _ Hacc))
    as (c' & Hin & Hperm).
  rewrite Hlen in Hin.
  pose proof (first_some_None _ _ Hr c' Hin) as Hc'. simpl in Hc'.
  rewrite <- (accept_perm target tp tm avail c c' Hperm), Hacc in Hc'.
  discriminate.
Qed.

Lemma cand_Some (r : nat) (c : list Z) :
  cand r = Some c -> accept target tp tm avail c = true /\ length c = r.
Proof.
  intros Hr. destruct (first_some_Some _ _ _ Hr) as (c' & Hin & Hc).
  destruct (accept target tp tm avail c') eqn:Hacc; [|discriminate].
  inversion Hc; subst c'. split; [done|]. eapply cwr_length; eauto.
Qed.

(** The pass returns an accepted combo of the least accepted size. *)
Lemma search_pass_Some (c : list Z) :
  search_pass keys target tp tm avail max_stack = Some c ->
  accept target tp tm avail c = true /\
  (1 <= length c <= max_stack)%nat /\
  forall c', (1 <= length c' < length c)%nat ->
             accept target tp tm avail c' = false.
Proof.
  intros H. destruct (first_some_seq cand 1 max_stack c H)
    as (r & Hr & Hc & Hbefore).
  destruct (cand_Some r c Hc) as [Hacc Hlen].
  split; [done|]. split; [lia|].
  intros c' Hc'. apply (cand_None (length c')); [|done].
  apply Hbefore. lia.
Qed.

(** A pass that finds nothing has no accepted combo of size 1..max_stack. *)
Lemma search_pass_None :
  search_pass keys target tp tm avail max_stack = None ->
  forall c, (1 <= length c <= max_stack)%nat ->
            accept target tp tm avail c = false.
Proof.
  intros H c Hc. apply (cand_None (length c)); [|done].
  apply (first_some_None cand (seq 1 max_stack) H).
  apply in_seq. lia.
Qed.

End Pass.

Lemma accept_band (target tp tm : Q) (avail : counter) (c : list Z) :
  accept target tp tm avail c = true ->
  (target - tm <= to_inches (round4 (sum_list c)) <= target + tp)%Q.
Proof.
  unfold accept, in_band. intros [[H1 H2]%andb_prop _]%andb_prop.
  apply Qle_bool_iff in H1, H2. split; done.
Qed.

(** The two ways [find_spacer_combo] can return a combo. *)
Lemma find_spacer_combo_cases (ms sb : Z) (target tp tm : Q) (m p : counter)
    (prefer_metal : bool) (max_stack : nat) (c : list Z) (b : bool) :
  find_spacer_combo ms sb target tp tm m p prefer_metal max_stack = Some (c, b) ->
  (b = true /\ prefer_metal = true /\
   search_pass (positive_keys m) target tp tm m max_stack = Some c) \/
  (b = false /\
   (prefer_metal = true ->
    search_pass (positive_keys m) target tp tm m max_stack = None) /\
   search_pass (positive_keys (counter_add m p)) target tp tm
     (counter_add m p) max_stack = Some c).
Proof.
  unfold find_spacer_combo.
  destruct prefer_metal.
  - destruct (search_pass (positive_keys m) target tp tm m max_stack) eqn:Hm.
    + intros H. inversion H; subst. left. auto.
    + destruct (search_pass (positive_keys (counter_add m p)) _ _ _ _ _) eqn:Ha;
        [|discriminate].
      intros H. inversion H; subst. right. auto.
  - destruct (search_pass (positive_keys (counter_add m p)) _ _ _ _ _) eqn:Ha;
      [|discriminate].
    intros H. inversion H; subst. right. split; [done|]. split; [discriminate|done].
Qed.

Lemma find_spacer_combo_view (ms sb : Z) (target tp tm : Q) (m p : counter)
    (prefer_metal : bool) (max_stack : nat) (c : list Z) (b : bool) :
  find_spacer_combo ms sb target tp tm m p prefer_metal max_stack = Some (c, b) ->
  search_pass (positive_keys (if b then m else counter_add m p)) target tp tm
    (if b then m else counter_add m p) max_stack = Some c.
Proof.
  intros H. destruct (find_spacer_combo_cases _ _ _ _ _ _ _ _ _ _ _ H)
    as [(-> & _ & Hs)|(-> & _ & Hs)]; done.
Qed.

(** ** Claims on find_spacer_combo *)

(** Claim C1: a combo returned by [find_spacer_combo] has its sum, rounded
    to 4 decimals, within [target - tol_minus, target + tol_plus], and uses
    each denomination at most as many times as the inventory view it was
    drawn from holds: the metal counter when flagged pure ([true]), the
    metal+plastic union otherwise. *)
Theorem find_spacer_combo_sound (ms sb : Z) (target tol_plus tol_minus : Q)
    (metal_inv plastic_inv : counter) (prefer_metal : bool) (max_stack : nat)
    (combo : list Z) (is_metal : bool) :
  find_spacer_combo ms sb target tol_plus tol_minus metal_inv plastic_inv
    prefer_metal max_stack = Some (combo, is_metal) ->
  (target - tol_minus <= to_inches (round4 (sum_list combo))
     <= target + tol_plus)%Q /\
  forall k, In k combo ->
    count k combo <=
    cget (if is_metal then metal_inv else counter_add metal_inv plastic_inv) k.
Proof.
  intros H.
  destruct (search_pass_Some _ _ _ _ _ _ (find_spacer_combo_view _ _ _ _ _ _ _ _ _ _ _ H))
    as [Hacc _].
  split.
  - apply (accept_band _ _ _ _ _ Hacc).
  - intros k Hk. apply (accept_avail _ _ _ _ _ _ Hacc Hk).
Qed.

Lemma find_spacer_combo_sound_witness :
  find_spacer_combo 1 1 (3#4) (1#1000) (1#1000)
    (<[500000 := 2]> (<[250000 := 1]> ∅)) ∅ true 8
  = Some ([500000; 250000], true) /\
  ((3#4) - (1#1000) <= to_inches (round4 (sum_list [500000; 250000]%Z))
     <= (3#4) + (1#1000))%Q /\
  (forall k, In k [500000; 250000] ->
     count k [500000; 250000] <=
     cget (if true then <[500000 := 2]> (<[250000 := 1]> ∅)
           else counter_add (<[500000 := 2]> (<[250000 := 1]> ∅)) ∅) k).
Proof.
  assert (H : find_spacer_combo 1 1 (3#4) (1#1000) (1#1000)
                (<[500000 := 2]> (<[250000 := 1]> ∅)) ∅ true 8
              = Some ([500000; 250000], true)) by (vm_compute; reflexivity).
  split; [exact H|].
  exact (find_spacer_combo_sound 1 1 (3#4) (1#1000) (1#1000)
           (<[500000 := 2]> (<[250000 := 1]> ∅)) ∅ true 8
           [500000; 250000] true H).
Defined.

(** Claim C2, as stated, fails: with metal [{0.5: 2}], plastic
    [{1.0: 1}], target 1.0 and tolerance (0, 0), the metal pass returns
    [[0.5, 0.5]] although the one-spacer combo [[1.0]] fits the band within
    the metal+plastic counts. *)
Lemma find_spacer_combo_not_minimal_counterexample :
  find_spacer_combo 1 1 1 0 0 (<[500000 := 2]> ∅) (<[1000000 := 1]> ∅) true 8
  = Some ([500000; 500000], true) /\
  length [1000000]%Z = 1%nat /\
  accept 1 0 0 (counter_add (<[500000 := 2]> ∅) (<[1000000 := 1]> ∅))
    [1000000] = true.
Proof. vm_compute. repeat split. Qed.

(** Claim C2 (amended): when [find_spacer_combo] returns a combo of size
    [r], no nonempty combo of size less than [r] is accepted (rounded sum in
    the band, multiplicities within the counts) in the inventory view the
    combo was drawn from: the metal counter for a pure result, the
    metal+plastic union for a mixed one. *)
Theorem find_spacer_combo_minimal_in_view (ms sb : Z)
    (target tol_plus tol_minus : Q) (metal_inv plastic_inv : counter)
    (prefer_metal : bool) (max_stack : nat) (combo : list Z) (is_metal : bool) :
  find_spacer_combo ms sb target tol_plus tol_minus metal_inv plastic_inv
    prefer_metal max_stack = Some (combo, is_metal) ->
  forall c, (1 <= length c < length combo)%nat ->
    accept target tol_plus tol_minus
      (if is_metal then metal_inv else counter_add metal_inv plastic_inv) c
    = false.
Proof.
  intros H.
  destruct (search_pass_Some _ _ _ _ _ _ (find_spacer_combo_view _ _ _ _ _ _ _ _ _ _ _ H))
    as (_ & _ & Hmin).
  exact Hmin.
Qed.

Lemma find_spacer_combo_minimal_in_view_witness :
  find_spacer_combo 1 1 (3#4) (1#1000) (1#1000)
    (<[500000 := 2]> (<[250000 := 1]> ∅)) ∅ true 8
  = Some ([500000; 250000], true) /\
  (1 <= length [500000]%Z < length [500000; 250000]%Z)%nat /\
  accept (3#4) (1#1000) (1#1000) (<[500000 := 2]> (<[250000 := 1]> ∅))
    [500000] = false.
Proof.
  assert (H : find_spacer_combo 1 1 (3#4) (1#1000) (1#1000)
                (<[500000 := 2]> (<[250000 := 1]> ∅)) ∅ true 8
              = Some ([500000; 250000], true)) by (vm_compute; reflexivity).
  assert (Hl : (1 <= length [500000]%Z < length [500000; 250000]%Z)%nat)
    by (simpl; lia).
  split; [exact H|]. split; [exact Hl|].
  exact (find_spacer_combo_minimal_in_view 1 1 (3#4) (1#1000) (1#1000)
           (<[500000 := 2]> (<[250000 := 1]> ∅)) ∅ true 8
           [500000; 250000] true H [500000] Hl).
Defined.

(** Claim C4: with [prefer_metal], a mixed (non-pure) result is returned
    only when no combo of size 1..max_stack is accepted against the metal
    counter alone; and on metal [{0.125: 1}], plastic [{0.125: 5}],
    target 0.125, tolerance (0, 0), the first call returns the metal
    [[0.125]], [use_spacers] then leaves metal 0.125 at 0, and the second
    call returns [[0.125]] flagged non-pure, which only the plastic counter
    can supply. *)
Theorem find_spacer_combo_prefers_metal :
  (forall (ms sb : Z) (target tol_plus tol_minus : Q)
          (metal_inv plastic_inv : counter) (max_stack : nat) (combo : list Z),
     find_spacer_combo ms sb target tol_plus tol_minus metal_inv plastic_inv
       true max_stack = Some (combo, false) ->
     forall c, (1 <= length c <= max_stack)%nat ->
       accept target tol_plus tol_minus metal_inv c = false) /\
  find_spacer_combo 1 1 (1#8) 0 0 (metal pref_inventory)
    (plastic pref_inventory) true 8 = Some ([125000], true) /\
  (let inv1 := fst (use_spacers pref_inventory [125000]) in
   snd (use_spacers pref_inventory [125000]) = None /\
   cget (metal inv1) 125000 = 0 /\
   cget (plastic inv1) 125000 = 5 /\
   find_spacer_combo 1 1 (1#8) 0 0 (metal inv1) (plastic inv1) true 8
   = Some ([125000], false)).
Proof.
  split.
  - intros ms sb target tp tm m p max_stack combo H.
    destruct (find_spacer_combo_cases _ _ _ _ _ _ _ _ _ _ _ H)
      as [(? & _)|(_ & Hnone & _)]; [discriminate|].
    apply search_pass_None. apply Hnone. done.
  - vm_compute. repeat split.
Qed.

Lemma find_spacer_combo_prefers_metal_witness :
  find_spacer_combo 1 1 (1#8) 0 0 (<[125000 := 0]> ∅) (<[125000 := 5]> ∅)
    true 8 = Some ([125000], false) /\
  accept (1#8) 0 0 (<[125000 := 0]> ∅) [125000] = false.
Proof.
  assert (H : find_spacer_combo 1 1 (1#8) 0 0 (<[125000 := 0]> ∅)
                (<[125000 := 5]> ∅) true 8 = Some ([125000], false))
    by (vm_compute; reflexivity).
  split; [exact H|].
  apply (proj1 find_spacer_combo_prefers_metal 1 1 (1#8) 0%Q 0%Q
           (<[125000 := 0]> ∅) (<[125000 := 5]> ∅) 8%nat [125000] H).
  simpl. lia.
Defined.

#[local] Instance desc_trans : Transitive desc.
Proof. unfold desc. intros x y z. lia. Qed.

#[local] Instance desc_total : Total desc.
Proof. unfold desc. intros x y. lia. Qed.

(** Claim C6: for each view, [find_spacer_combo] returns the first
    accepted candidate of the enumeration, size by size from 1, of the
    combinations with replacement of the positive denominations sorted in
    descending order; on the pool [{0.500: 2, 0.250: 1}], target 0.750,
    tolerance (0.001, 0.001), it returns [[0.500, 0.250]]. *)
Theorem find_spacer_combo_first_in_order :
  (forall (ms sb : Z) (target tol_plus tol_minus : Q)
          (metal_inv plastic_inv : counter) (max_stack : nat),
     let all := counter_add metal_inv plastic_inv in
     find_spacer_combo ms sb target tol_plus tol_minus metal_inv plastic_inv
       true max_stack =
     match head (List.filter (accept target tol_plus tol_minus metal_inv)
                   (concat (map (cwr (positive_keys metal_inv))
                                (seq 1 max_stack)))) with
     | Some c => Some (c, true)
     | None =>
         match head (List.filter (accept target tol_plus tol_minus all)
                       (concat (map (cwr (positive_keys all))
                                    (seq 1 max_stack)))) with
         | Some c => Some (c, false)
         | None => None
         end
     end) /\
  (forall inv : counter, StronglySorted desc (positive_keys inv)) /\
  find_spacer_combo 1 1 (3#4) (1#1000) (1#1000)
    (<[500000 := 2]> (<[250000 := 1]> ∅)) ∅ true 8
  = Some ([500000; 250000], true).
Proof.
  split; [|split].
  - intros. unfold find_spacer_combo, search_pass.
    subst all. rewrite !first_some_concat, !first_some_filter. reflexivity.
  - intros inv. apply (StronglySorted_merge_sort desc).
  - vm_compute. reflexivity.
Qed.

(** Claim C10: the toggle values read at the start of [find_spacer_combo]
    ("Minimize Plastic Shims", "Smart Inventory Balancing") do not affect
    its result. *)
Theorem find_spacer_combo_toggles_unused (ms1 sb1 ms2 sb2 : Z)
    (target tol_plus tol_minus : Q) (metal_inv plastic_inv : counter)
    (prefer_metal : bool) (max_stack : nat) :
  find_spacer_combo ms1 sb1 target tol_plus tol_minus metal_inv plastic_inv
    prefer_metal max_stack =
  find_spacer_combo ms2 sb2 target tol_plus tol_minus metal_inv plastic_inv
    prefer_metal max_stack.
Proof. reflexivity. Qed.

(** ** The ledger *)

(** Claim C3 fails on the code: [use_spacers] decrements the sizes it meets
    before the first missing one, then raises with those decrements left in
    place.  With metal [{0.5: 1}] and an empty plastic counter, reserving
    [[0.5, 0.25]] fails and leaves metal 0.5 at 0. *)
Theorem use_spacers_partial_on_failure :
  let inv := mkInventory (<[500000 := 1]> ∅) ∅ in
  use_spacers inv [500000; 250000]
  = (mkInventory (<[500000 := 0]> ∅) ∅, Some (NoInventoryLeft 250000)) /\
  fst (use_spacers inv [500000; 250000]) <> inv.
Proof.
  vm_compute. split; [reflexivity|]. intros H. inversion H.
Qed.

(** ** The pipeline *)

Lemma truthy_Some (r : option (list Z * bool)) (c : list Z) :
  truthy r = Some c -> exists b, r = Some (c, b).
Proof.
  destruct r as [[[|x xs] b]|]; simpl; try discriminate.
  intros H. inversion H; subst. eauto.
Qed.

(** Claim C5 fails on the code: the shoulder decrement tests only
    [sz in job_metal], without the [job_metal[sz] > 0] of the per-cut
    decrements.  With metal [{0.002: 1}] and plastic [{0.002: 1}], a
    shoulder target of 0.004 (clearance 0, female knife 0.004) gets the
    mixed combo [[0.002, 0.002]], and both units are taken from metal,
    which drops to -1. *)
Theorem shoulder_decrement_negative :
  let a := mkApp (mkInventory (<[2000 := 1]> ∅) (<[2000 := 1]> ∅)) [] [] ∅ 1 1 in
  let j := mkJob [745 # 1000] (1 # 100) 0 (4 # 1000) (4 # 1000)
             (5 # 1000) (5 # 1000) "Aluminum" true in
  let rs0 := mkRun a (metal (inventory a)) (plastic (inventory a)) in
  find_in a (4 # 1000) (1 # 1000) (1 # 1000) (job_metal rs0) (job_plastic rs0)
  = Some ([2000; 2000], false) /\
  cget (job_metal (fst (shoulder_stage j ((1 # 100) * (0 / 100))%Q rs0))) 2000 = -1 /\
  cget (job_metal (fst (run_spacers a j))) 2000 = -1.
Proof. vm_compute. repeat split. Qed.

(** *** Frame of a run *)

Lemma shoulder_stage_inventory (j : job) (cl : Q) (rs : run_state) :
  inventory (self (fst (shoulder_stage j cl rs))) = inventory (self rs).
Proof.
  unfold shoulder_stage.
  destruct (truthy _); [|done].
  destruct (dec_shoulder _ _). done.
Qed.

Lemma cut_step_inventory (j : job) (d cl : Q) (i : nat) (cut : Q)
    (rs : run_state) :
  inventory (self (fst (cut_step j d cl i cut rs))) = inventory (self rs).
Proof.
  unfold cut_step.
  destruct (truthy _); [|done].
  destruct (dec_cut _ _) as [m1 p1].
  destruct (truthy _); [|done].
  destruct (dec_cut _ _). destruct (Nat.eqb _ _); done.
Qed.

Lemma cut_loop_inventory (j : job) (d cl : Q) :
  forall cs i rs,
  inventory (self (fst (cut_loop j d cl i cs rs))) = inventory (self rs).
Proof.
  induction cs as [|cut cs IH]; intros i rs; simpl; [done|].
  pose proof (cut_step_inventory j d cl i cut rs) as Hs.
  destruct (cut_step j d cl i cut rs) as [rs' [e|]]; simpl in *; [done|].
  rewrite IH. done.
Qed.

(** Claim C7: a run of [calculate_spacers], complete or aborted at any
    stage, leaves [self.inventory] (its [metal] and [plastic] counters)
    as it was: all decrements go to the copies [job_metal], [job_plastic]. *)
Theorem calculate_spacers_inventory_unchanged
    (a : SpacerCalculatorApp) (j : job) :
  inventory (fst (calculate_spacers a j)) = inventory a /\
  metal (inventory (fst (calculate_spacers a j))) = metal (inventory a) /\
  plastic (inventory (fst (calculate_spacers a j))) = plastic (inventory a).
Proof.
  assert (H : inventory (fst (calculate_spacers a j)) = inventory a).
  { unfold calculate_spacers, run_spacers.
    set (cl := (thickness j * (clearance_pct j / 100))%Q).
    set (a0 := set_used (set_lines a [] []) ∅).
    set (rs0 := mkRun a0 (metal (inventory a0)) (plastic (inventory a0))).
    pose proof (shoulder_stage_inventory j cl rs0) as Hsh.
    destruct (shoulder_stage j cl rs0) as [rs1 [e|]] eqn:Hs; simpl in *.
    - rewrite Hsh. done.
    - pose proof (cut_loop_inventory j (run_deflect_offset j) cl (cuts j) 1 rs1)
        as Hl.
      destruct (cut_loop _ _ _ _ _ _) as [rs2 e2]. simpl in *.
      rewrite Hl, Hsh. done. }
  rewrite H. done.
Qed.

(** *** Male targets *)

Section MaleTargets.
Variables (j : job) (ms sb : Z) (d cl : Q).

Lemma male_lines_ok_nil : male_lines_ok j ms sb d cl [].
Proof. intros i mt mc []. Qed.

Lemma male_lines_ok_grow (L L' : list line) :
  male_lines_ok j ms sb d cl L ->
  (forall x, In x L -> In x L') ->
  (forall i mt mc, In (MaleLine i mt mc) L' ->
     In (MaleLine i mt mc) L \/
     exists fs fc, In (FemaleLine i fs fc) L' /\
       fs = (to_inches (sum_list fc) + d)%Q /\
       mt = (fs - (knife_female j + knife_male j + 2 * cl))%Q /\
       exists m p b,
         find_spacer_combo ms sb mt (1 # 1000) (1 # 1000) m p true 8
         = Some (mc, b)) ->
  male_lines_ok j ms sb d cl L'.
Proof.
  intros HL Hsub Hnew i mt mc Hin.
  destruct (Hnew i mt mc Hin) as [Hold|Hfresh]; [|done].
  destruct (HL i mt mc Hold) as (fs & fc & Hf & Hrest).
  exists fs, fc. split; [apply Hsub; done|done].
Qed.

(** The invariant of a run: the toggles are those of the application and
    the male lines so far are well formed. *)
Definition run_inv (rs : run_state) : Prop :=
  minimize_shims_var (self rs) = ms /\ smart_balance_var (self rs) = sb /\
  male_lines_ok j ms sb d cl (all_lines (self rs)).

Lemma shoulder_stage_inv (rs : run_state) :
  run_inv rs -> run_inv (fst (shoulder_stage j cl rs)).
Proof.
  unfold shoulder_stage. intros Hinv. pose proof Hinv as (Hms & Hsb & Hok).
  destruct (truthy _) as [s|]; [|exact Hinv].
  destruct (dec_shoulder _ _) as [m p]. simpl.
  split; [done|]. split; [done|].
  apply (male_lines_ok_grow _ _ Hok).
  - intros x. unfold all_lines. simpl. rewrite !in_app_iff. tauto.
  - intros i mt mc. unfold all_lines. simpl. rewrite !in_app_iff.
    intros [H|[H|[H|[]]]]; [left; tauto
                          | left; tauto | discriminate].
Qed.

Lemma cut_step_inv (i : nat) (cut : Q) (rs : run_state) :
  run_inv rs -> run_inv (fst (cut_step j d cl i cut rs)).
Proof.
  unfold cut_step. intros Hinv. pose proof Hinv as (Hms & Hsb & Hok).
  destruct (truthy _) as [fc|]; [|exact Hinv].
  destruct (dec_cut _ _) as [m1 p1].
  destruct (truthy _) as [mc|] eqn:Hm;
    [|split; [exact Hms|]; split; [exact Hsb|exact Hok]].
  destruct (truthy_Some _ _ Hm) as [b Hfind].
  unfold find_in in Hfind. simpl in Hfind. rewrite Hms, Hsb in Hfind.
  destruct (dec_cut _ _) as [m2 p2].
  destruct (Nat.eqb _ _); simpl; (split; [done|]); (split; [done|]);
    (apply (male_lines_ok_grow _ _ Hok);
     [ intros x; unfold all_lines; simpl; rewrite !in_app_iff; tauto
     | intros i' mt mc' Hin; unfold all_lines in Hin; simpl in Hin;
       rewrite !in_app_iff in Hin; simpl in Hin ]);
    (destruct_or! Hin; try (left; unfold all_lines; rewrite in_app_iff; tauto);
     try discriminate; try done);
    (inversion Hin; subst; right;
     exists (to_inches (sum_list fc) + d)%Q, fc;
     split; [unfold all_lines; simpl; rewrite !in_app_iff; simpl; tauto|];
     split; [done|]; split; [done|]; eauto).
Qed.

Lemma cut_loop_inv (cs : list Q) :
  forall i rs, run_inv rs -> run_inv (fst (cut_loop j d cl i cs rs)).
Proof.
  induction cs as [|cut cs IH]; intros i rs Hinv; simpl; [done|].
  pose proof (cut_step_inv i cut rs Hinv) as Hs.
  destruct (cut_step j d cl i cut rs) as [rs' [e|]]; simpl in *; [done|].
  apply IH. done.
Qed.

End MaleTargets.

(** Claim C8: in every run of [calculate_spacers] (complete or aborted),
    each male line of cut [i] comes with the female line of cut [i]; the
    female sum is [sum(female_combo) + d] with [d] the deflection offset of
    the run, the male target is that sum minus
    [knife_female + knife_male + 2 * clearance], and the male combo is a
    result of [find_spacer_combo] at that target with the fixed tolerance
    (0.001, 0.001). *)
Theorem calculate_spacers_male_target (a : SpacerCalculatorApp) (j : job)
    (i : nat) (mt : Q) (mc : list Z)
    (H : In (MaleLine i mt mc) (all_lines (fst (calculate_spacers a j)))) :
  exists fs fc,
    In (FemaleLine i fs fc) (all_lines (fst (calculate_spacers a j))) /\
    fs = (to_inches (sum_list fc) + run_deflect_offset j)%Q /\
    mt = (fs - (knife_female j + knife_male j
                + 2 * (thickness j * (clearance_pct j / 100))))%Q /\
    exists m p b,
      find_spacer_combo (minimize_shims_var a) (smart_balance_var a)
        mt (1 # 1000) (1 # 1000) m p true 8 = Some (mc, b).
Proof.
  set (cl := (thickness j * (clearance_pct j / 100))%Q).
  set (d := run_deflect_offset j).
  assert (Hinv : run_inv j (minimize_shims_var a) (smart_balance_var a) d cl
                   (fst (run_spacers a j))).
  { unfold run_spacers. fold cl d.
    set (a0 := set_used (set_lines a [] []) ∅).
    set (rs0 := mkRun a0 (metal (inventory a0)) (plastic (inventory a0))).
    assert (H0 : run_inv j (minimize_shims_var a) (smart_balance_var a) d cl rs0).
    { split; [done|]. split; [done|]. apply male_lines_ok_nil. }
    pose proof (shoulder_stage_inv j _ _ d cl rs0 H0) as H1.
    destruct (shoulder_stage j cl rs0) as [rs1 [e|]]; simpl in *; [done|].
    apply cut_loop_inv. done. }
  destruct Hinv as (_ & _ & Hok).
  unfold calculate_spacers in H |- *.
  destruct (run_spacers a j) as [rs e]. simpl in *.
  apply (Hok i mt mc H).
Qed.

Lemma calculate_spacers_male_target_witness :
  In (MaleLine 1 ((to_inches (sum_list [500000; 250000]%Z) + 0)
                  - ((1 # 4) + (1 # 4) + 2 * (0 * (0 / 100))))%Q [250000])
     (all_lines (fst (calculate_spacers demo_app demo_job))) /\
  exists fs fc,
    In (FemaleLine 1 fs fc) (all_lines (fst (calculate_spacers demo_app demo_job))) /\
    fs = (to_inches (sum_list fc) + run_deflect_offset demo_job)%Q /\
    ((to_inches (sum_list [500000; 250000]%Z) + 0)
       - ((1 # 4) + (1 # 4) + 2 * (0 * (0 / 100))))%Q
    = (fs - (knife_female demo_job + knife_male demo_job
             + 2 * (thickness demo_job * (clearance_pct demo_job / 100))))%Q /\
    exists m p b,
      find_spacer_combo (minimize_shims_var demo_app) (smart_balance_var demo_app)
        ((to_inches (sum_list [500000; 250000]%Z) + 0)
           - ((1 # 4) + (1 # 4) + 2 * (0 * (0 / 100))))%Q
        (1 # 1000) (1 # 1000) m p true 8 = Some ([250000], b).
Proof.
  assert (H : In (MaleLine 1 ((to_inches (sum_list [500000; 250000]%Z) + 0)
                  - ((1 # 4) + (1 # 4) + 2 * (0 * (0 / 100))))%Q [250000])
                (all_lines (fst (calculate_spacers demo_app demo_job))))
    by (vm_compute; tauto).
  split; [exact H|].
  exact (calculate_spacers_male_target demo_app demo_job 1 _ [250000] H).
Defined.

(** ** Deflection offset *)

(** Claim C9: the deflection offset of a run is 0 when the toggle is off;
    when it is on it is [get_deflection_offset material thickness], which
    is 0.0005 for Aluminum, 0.0015 for Galvanized or Stainless thicker than
    0.030, 0.0010 for those two at most 0.030 thick, and 0 for any other
    material.  It is a function of the material and thickness only. *)
Theorem deflection_offset_spec :
  (forall j : job, auto_deflect j = false -> run_deflect_offset j = 0%Q) /\
  (forall j : job, auto_deflect j = true ->
     run_deflect_offset j = get_deflection_offset (material j) (thickness j)) /\
  (forall th : Q, get_deflection_offset "Aluminum" th = (5 # 10000)%Q) /\
  (forall (mat : string) (th : Q),
     mat = "Galvanized"%string \/ mat = "Stainless"%string ->
     (3 # 100 < th)%Q -> get_deflection_offset mat th = (15 # 10000)%Q) /\
  (forall (mat : string) (th : Q),
     mat = "Galvanized"%string \/ mat = "Stainless"%string ->
     (th <= 3 # 100)%Q -> get_deflection_offset mat th = (10 # 10000)%Q) /\
  (forall (mat : string) (th : Q),
     mat <> "Aluminum"%string -> mat <> "Galvanized"%string ->
     mat <> "Stainless"%string -> get_deflection_offset mat th = 0%Q).
Proof.
  split; [intros j Hj; unfold run_deflect_offset; rewrite Hj; done|].
  split; [intros j Hj; unfold run_deflect_offset; rewrite Hj; done|].
  split; [intros th; reflexivity|].
  split; [|split].
  - intros mat th Hmat Hlt.
    assert (Hle : Qle_bool th (3 # 100) = false).
    { destruct (Qle_bool th (3 # 100)) eqn:E; [|done].
      apply Qle_bool_iff in E. exfalso. apply (Qlt_not_le _ _ Hlt E). }
    destruct Hmat as [Hm|Hm]; subst mat; unfold get_deflection_offset; simpl; rewrite Hle; done.
  - intros mat th Hmat Hle.
    apply Qle_bool_iff in Hle.
    destruct Hmat as [Hm|Hm]; subst mat; unfold get_deflection_offset; simpl; rewrite Hle; done.
  - intros mat th H1 H2 H3. unfold get_deflection_offset.
    apply String.eqb_neq in H1, H2, H3. rewrite H1, H2, H3. done.
Qed.

Lemma deflection_offset_spec_witness :
  get_deflection_offset "Aluminum" (4 # 100) = (5 # 10000)%Q /\
  get_deflection_offset "Stainless" (4 # 100) = (15 # 10000)%Q /\
  get_deflection_offset "Galvanized" (2 # 100) = (10 # 10000)%Q /\
  get_deflection_offset "Copper" (4 # 100) = 0%Q /\
  run_deflect_offset demo_job = 0%Q /\
  run_deflect_offset (mkJob [] (4 # 100) 0 0 0 0 0 "Stainless" true)
  = get_deflection_offset "Stainless" (4 # 100).
Proof.
  destruct deflection_offset_spec as (Hoff & Hon & Hal & Hthick & Hthin & Hother).
  split; [apply Hal|].
  split; [apply Hthick; [right; reflexivity | unfold Qlt; simpl; lia]|].
  split; [apply Hthin; [left; reflexivity | unfold Qle; simpl; lia]|].
  split; [apply Hother; discriminate|].
  split; [apply Hoff; reflexivity|].
  apply Hon. reflexivity.
Defined.

(** ** Further properties of the ledger *)

Lemma cget_counter_add (a b : counter) (k : Z) :
  cget (counter_add a b) k =
  if 0 <? cget a k + cget b k then cget a k + cget b k else 0.
Proof.
  unfold cget, counter_add.
  rewrite map_lookup_filter, lookup_union_with.
  destruct (a !! k) as [x|], (b !! k) as [y|]; simpl;
    repeat case_guard; simpl; try (case_match; lia);
    destruct (Z.ltb_spec 0 (x + y)) || destruct (Z.ltb_spec 0 x)
      || destruct (Z.ltb_spec 0 y) || idtac; simpl in *; lia.
Qed.

Lemma cget_cdec (c : counter) (k k' : Z) :
  cget (cdec c k) k' = if Z.eq_dec k k' then cget c k - 1 else cget c k'.
Proof.
  unfold cdec, cget at 1. rewrite lookup_insert.
  destruct (Z.eq_dec k k') as [->|Hne]; simpl.
  - rewrite decide_True; done.
  - rewrite decide_False; done.
Qed.

Lemma count_cons (k sz : Z) (rest : list Z) :
  count k (sz :: rest) = (if Z.eq_dec sz k then 1 else 0) + count k rest.
Proof.
  unfold count. simpl. destruct (Z.eq_dec sz k); lia.
Qed.

Lemma count_nonneg (k : Z) (c : list Z) : 0 <= count k c.
Proof. unfold count. lia. Qed.

Lemma count_not_in (k : Z) (c : list Z) : ~ In k c -> count k c = 0.
Proof.
  intros H. unfold count. rewrite (proj1 (count_occ_not_In Z.eq_dec c k) H).
  done.
Qed.

(** The loop succeeds exactly when every size is needed at most as many
    times as the positive parts of its two counts provide. *)
Lemma use_spacers_loop_ok_iff (combo : list Z) :
  forall m p,
  snd (use_spacers_loop m p combo) = None <->
  forall k, count k combo <= Z.max 0 (cget m k) + Z.max 0 (cget p k).
Proof.
  induction combo as [|sz rest IH]; intros m p; simpl.
  - split; [intros _ k; unfold count; simpl; lia|done].
  - destruct (Z.ltb_spec 0 (cget m sz)) as [Hm|Hm].
    + rewrite IH. split; intros H k; specialize (H k);
        rewrite ?count_cons, ?cget_cdec in *;
        destruct (Z.eq_dec sz k) as [<-|]; lia.
    + destruct (Z.ltb_spec 0 (cget p sz)) as [Hp|Hp].
      * rewrite IH. split; intros H k; specialize (H k);
          rewrite ?count_cons, ?cget_cdec in *;
          destruct (Z.eq_dec sz k) as [<-|]; lia.
      * simpl. split; [discriminate|]. intros H. specialize (H sz).
        rewrite count_cons in H. destruct (Z.eq_dec sz sz); [|done].
        pose proof (count_nonneg sz rest). lia.
Qed.

(** On success, each size's metal+plastic total drops by its multiplicity. *)
Lemma use_spacers_loop_total (combo : list Z) :
  forall m p m' p',
  use_spacers_loop m p combo = (m', p', None) ->
  forall k, cget m' k + cget p' k = cget m k + cget p k - count k combo.
Proof.
  induction combo as [|sz rest IH]; intros m p m' p' H k; simpl in H.
  - inversion H; subst. unfold count. simpl. lia.
  - rewrite count_cons.
    destruct (0 <? cget m sz); [|destruct (0 <? cget p sz)].
    + rewrite (IH _ _ _ _ H k), cget_cdec. destruct (Z.eq_dec sz k) as [<-|]; lia.
    + rewrite (IH _ _ _ _ H k), cget_cdec. destruct (Z.eq_dec sz k) as [<-|]; lia.
    + discriminate.
Qed.

(** The loop only decrements a positive count. *)
Lemma use_spacers_loop_nonneg (combo : list Z) :
  forall m p k,
  0 <= cget m k -> 0 <= cget p k ->
  let '(m', p', _) := use_spacers_loop m p combo in
  0 <= cget m' k /\ 0 <= cget p' k.
Proof.
  induction combo as [|sz rest IH]; intros m p k Hm Hp; simpl; [done|].
  destruct (Z.ltb_spec 0 (cget m sz)); [|destruct (Z.ltb_spec 0 (cget p sz))].
  - apply IH; [|done]. rewrite cget_cdec. destruct (Z.eq_dec sz k) as [<-|]; lia.
  - apply IH; [done|]. rewrite cget_cdec. destruct (Z.eq_dec sz k) as [<-|]; lia.
  - done.
Qed.

Lemma use_spacers_loop_app (c1 c2 : list Z) :
  forall m p,
  use_spacers_loop m p (c1 ++ c2) =
  match use_spacers_loop m p c1 with
  | (m1, p1, None) => use_spacers_loop m1 p1 c2
  | r => r
  end.
Proof.
  induction c1 as [|sz rest IH]; intros m p; simpl; [done|].
  destruct (0 <? cget m sz); [apply IH|].
  destruct (0 <? cget p sz); [apply IH|done].
Qed.

(** [check_availability] accepts a combo exactly when [use_spacers] would
    reserve it without error, on counters with no negative count. *)
Theorem check_availability_iff_use_spacers_ok (inv : SpacerInventory)
    (combo : list Z)
    (Hm : forall k, 0 <= cget (metal inv) k)
    (Hp : forall k, 0 <= cget (plastic inv) k) :
  check_availability inv combo = true <-> snd (use_spacers inv combo) = None.
Proof.
  assert (Hu : snd (use_spacers inv combo) =
               snd (use_spacers_loop (metal inv) (plastic inv) combo)).
  { unfold use_spacers. destruct (use_spacers_loop _ _ _) as [[? ?] ?]. done. }
  rewrite Hu, use_spacers_loop_ok_iff.
  unfold check_availability. rewrite forallb_forall.
  split.
  - intros H k. specialize (Hm k). specialize (Hp k).
    destruct (in_dec Z.eq_dec k combo) as [Hin|Hnin].
    + apply H, Z.leb_le in Hin. rewrite cget_counter_add in Hin.
      destruct (0 <? _); lia.
    + rewrite count_not_in by done. lia.
  - intros H k _. apply Z.leb_le. specialize (H k).
    specialize (Hm k). specialize (Hp k). rewrite cget_counter_add.
    destruct (Z.ltb_spec 0 (cget (metal inv) k + cget (plastic inv) k)); [lia|].
    assert (count k combo <= 0) by lia. lia.
Qed.

Lemma check_availability_iff_use_spacers_ok_witness :
  check_availability pref_inventory [125000; 125000] = true /\
  snd (use_spacers pref_inventory [125000; 125000]) = None.
Proof.
  assert (Hm : forall k, 0 <= cget (metal pref_inventory) k).
  { intros k. unfold cget. simpl. rewrite lookup_insert.
    case_decide; simpl; [lia|]. rewrite lookup_empty. simpl. lia. }
  assert (Hp : forall k, 0 <= cget (plastic pref_inventory) k).
  { intros k. unfold cget. simpl. rewrite lookup_insert.
    case_decide; simpl; [lia|]. rewrite lookup_empty. simpl. lia. }
  assert (H : check_availability pref_inventory [125000; 125000] = true)
    by (vm_compute; reflexivity).
  split; [exact H|].
  exact (proj1 (check_availability_iff_use_spacers_ok pref_inventory
                  [125000; 125000] Hm Hp) H).
Defined.

(** A successful [use_spacers] lowers each size's metal+plastic total by
    exactly its multiplicity in the combo, taking metal first. *)
Theorem use_spacers_success_total (inv inv' : SpacerInventory) (combo : list Z)
    (H : use_spacers inv combo = (inv', None)) :
  forall k, cget (metal inv') k + cget (plastic inv') k =
            cget (metal inv) k + cget (plastic inv) k - count k combo.
Proof.
  unfold use_spacers in H.
  destruct (use_spacers_loop _ _ _) as [[m p] e] eqn:Hl.
  inversion H; subst. simpl. apply (use_spacers_loop_total _ _ _ _ _ Hl).
Qed.

Lemma use_spacers_success_total_witness :
  use_spacers pref_inventory [125000; 125000]
  = (mkInventory (<[125000 := 0]> ∅) (<[125000 := 4]> ∅), None) /\
  cget (<[125000 := 0]> ∅) 125000 + cget (<[125000 := 4]> ∅) 125000 =
  cget (metal pref_inventory) 125000 + cget (plastic pref_inventory) 125000
  - count 125000 [125000; 125000].
Proof.
  assert (H : use_spacers pref_inventory [125000; 125000]
              = (mkInventory (<[125000 := 0]> ∅) (<[125000 := 4]> ∅), None))
    by (vm_compute; reflexivity).
  split; [exact H|].
  exact (use_spacers_success_total _ _ _ H 125000).
Defined.

(** [use_spacers] never drives a count below zero, whether it succeeds or
    raises. *)
Theorem use_spacers_keeps_nonneg (inv : SpacerInventory) (combo : list Z)
    (k : Z) (Hm : 0 <= cget (metal inv) k) (Hp : 0 <= cget (plastic inv) k) :
  0 <= cget (metal (fst (use_spacers inv combo))) k /\
  0 <= cget (plastic (fst (use_spacers inv combo))) k.
Proof.
  unfold use_spacers.
  pose proof (use_spacers_loop_nonneg combo (metal inv) (plastic inv) k Hm Hp).
  destruct (use_spacers_loop _ _ _) as [[m p] e]. done.
Qed.

Lemma use_spacers_keeps_nonneg_witness :
  0 <= cget (metal (fst (use_spacers pref_inventory [125000; 125000; 250000]))) 125000 /\
  0 <= cget (plastic (fst (use_spacers pref_inventory [125000; 125000; 250000]))) 125000.
Proof.
  apply use_spacers_keeps_nonneg; vm_compute; discriminate.
Defined.

(** Reserving [c1 ++ c2] is reserving [c1], then, if that succeeded,
    reserving [c2] on the result. *)
Theorem use_spacers_app (inv : SpacerInventory) (c1 c2 : list Z) :
  use_spacers inv (c1 ++ c2) =
  match use_spacers inv c1 with
  | (inv1, None) => use_spacers inv1 c2
  | r => r
  end.
Proof.
  unfold use_spacers. rewrite use_spacers_loop_app.
  destruct (use_spacers_loop _ _ c1) as [[m1 p1] [e|]]; simpl; [done|].
  done.
Qed.

(** ** Further properties of find_spacer_combo *)

(** Candidates over a descending pool are descending lists of pool
    elements. *)
Lemma cwr_sorted (l : list Z) :
  StronglySorted desc l ->
  forall r c, In c (cwr l r) -> Sorted desc c /\ forall y, In y c -> In y l.
Proof.
  induction l as [|x xs IHl]; intros Hl r.
  - destruct r; simpl; [|tauto]. intros c [<-|[]]. split; [constructor|done].
  - apply StronglySorted_inv in Hl as [Hxs Hx].
    induction r as [|r IHr]; intros c.
    + rewrite cwr_cons_0. intros [<-|[]]. split; [constructor|done].
    + rewrite cwr_cons_eq, in_app_iff, in_map_iff.
      intros [(c' & <- & Hc')|Hc].
      * destruct (IHr c' Hc') as [Hs Hin]. split.
        -- constructor; [done|]. destruct c' as [|y c'']; constructor.
           destruct (Hin y (or_introl eq_refl)) as [<-|Hy].
           ++ unfold desc. lia.
           ++ apply (proj1 (List.Forall_forall _ _) Hx). exact Hy.
        -- intros y [<-|Hy]; [left; done|]. apply Hin. done.
      * destruct (IHl Hxs (S r) c Hc) as [Hs Hin].
        split; [done|]. intros y Hy. right. apply Hin. done.
Qed.

(** A returned combo has between 1 and [max_stack] spacers; in particular
    [max_stack = 0] always gives [(None, None)]. *)
Theorem find_spacer_combo_size (ms sb : Z) (target tol_plus tol_minus : Q)
    (metal_inv plastic_inv : counter) (prefer_metal : bool) (max_stack : nat)
    (combo : list Z) (is_metal : bool)
    (H : find_spacer_combo ms sb target tol_plus tol_minus metal_inv plastic_inv
           prefer_metal max_stack = Some (combo, is_metal)) :
  (1 <= length combo <= max_stack)%nat.
Proof.
  apply (search_pass_Some _ _ _ _ _ _ (find_spacer_combo_view _ _ _ _ _ _ _ _ _ _ _ H)).
Qed.

Lemma find_spacer_combo_size_witness :
  find_spacer_combo 1 1 (3#4) (1#1000) (1#1000)
    (<[500000 := 2]> (<[250000 := 1]> ∅)) ∅ true 8
  = Some ([500000; 250000], true) /\
  (1 <= length [500000; 250000]%Z <= 8)%nat.
Proof.
  assert (H : find_spacer_combo 1 1 (3#4) (1#1000) (1#1000)
                (<[500000 := 2]> (<[250000 := 1]> ∅)) ∅ true 8
              = Some ([500000; 250000], true)) by (vm_compute; reflexivity).
  split; [exact H|]. exact (find_spacer_combo_size _ _ _ _ _ _ _ _ _ _ _ H).
Defined.

(** A returned combo is in descending order of thickness and uses only
    sizes with a positive count in the view it was drawn from (the metal
    counter for a pure result, the metal+plastic union otherwise). *)
Theorem find_spacer_combo_descending (ms sb : Z) (target tol_plus tol_minus : Q)
    (metal_inv plastic_inv : counter) (prefer_metal : bool) (max_stack : nat)
    (combo : list Z) (is_metal : bool)
    (H : find_spacer_combo ms sb target tol_plus tol_minus metal_inv plastic_inv
           prefer_metal max_stack = Some (combo, is_metal)) :
  Sorted (fun x y => y <= x) combo /\
  forall k, In k combo ->
    0 < cget (if is_metal then metal_inv else counter_add metal_inv plastic_inv) k.
Proof.
  pose proof (find_spacer_combo_view _ _ _ _ _ _ _ _ _ _ _ H) as Hs.
  set (view := if is_metal then metal_inv else counter_add metal_inv plastic_inv)
    in *.
  unfold search_pass in Hs.
  destruct (first_some_seq _ 1 max_stack combo Hs) as (r & _ & Hr & _).
  destruct (first_some_Some _ _ _ Hr) as (c' & Hin & Hc).
  destruct (accept target tol_plus tol_minus view c'); [|discriminate].
  inversion Hc; subst c'.
  destruct (cwr_sorted (positive_keys view)
              (StronglySorted_merge_sort desc _) r combo Hin) as [Hsort Hkeys].
  split; [exact Hsort|].
  intros k Hk. apply positive_keys_spec, Hkeys, Hk.
Qed.

Lemma find_spacer_combo_descending_witness :
  find_spacer_combo 1 1 (3#4) (1#1000) (1#1000)
    (<[500000 := 2]> (<[250000 := 1]> ∅)) ∅ true 8
  = Some ([500000; 250000], true) /\
  Sorted (fun x y => y <= x) [500000; 250000].
Proof.
  assert (H : find_spacer_combo 1 1 (3#4) (1#1000) (1#1000)
                (<[500000 := 2]> (<[250000 := 1]> ∅)) ∅ true 8
              = Some ([500000; 250000], true)) by (vm_compute; reflexivity).
  split; [exact H|].
  exact (proj1 (find_spacer_combo_descending _ _ _ _ _ _ _ _ _ _ _ H)).
Defined.

(** [find_spacer_combo] fails only when nothing fits: if some combo of
    1..max_stack spacers is accepted against the metal+plastic union, a
    combo is returned. *)
Theorem find_spacer_combo_complete (ms sb : Z) (target tol_plus tol_minus : Q)
    (metal_inv plastic_inv : counter) (prefer_metal : bool) (max_stack : nat)
    (c : list Z) (Hlen : (1 <= length c <= max_stack)%nat)
    (Hacc : accept target tol_plus tol_minus
              (counter_add metal_inv plastic_inv) c = true) :
  exists combo is_metal,
    find_spacer_combo ms sb target tol_plus tol_minus metal_inv plastic_inv
      prefer_metal max_stack = Some (combo, is_metal).
Proof.
  unfold find_spacer_combo.
  destruct (if prefer_metal then _ else None) as [c1|]; [eauto|].
  destruct (search_pass (positive_keys (counter_add metal_inv plastic_inv))
              _ _ _ _ _) as [c2|] eqn:Hs; [eauto|].
  rewrite (search_pass_None _ _ _ _ _ Hs c Hlen) in Hacc. discriminate.
Qed.

Lemma find_spacer_combo_complete_witness :
  exists combo is_metal,
    find_spacer_combo 1 1 (3#4) (1#1000) (1#1000) ∅
      (<[500000 := 2]> (<[250000 := 1]> ∅)) true 8 = Some (combo, is_metal).
Proof.
  apply (find_spacer_combo_complete 1 1 (3#4) (1#1000) (1#1000) ∅
           (<[500000 := 2]> (<[250000 := 1]> ∅)) true 8 [500000; 250000]).
  - simpl. lia.
  - vm_compute. reflexivity.
Defined.

(** ** The per-cut decrement of calculate_spacers *)

Lemma has_positive_cget (c : counter) (k : Z) :
  has_positive c k = (0 <? cget c k).
Proof. unfold has_positive, cget. destruct (c !! k); done. Qed.


Lemma dec_cut_nonneg (combo : list Z) :
  forall m p k, 0 <= cget m k -> 0 <= cget p k ->
  0 <= cget (dec_cut (m, p) combo).1 k /\ 0 <= cget (dec_cut (m, p) combo).2 k.
Proof.
  induction combo as [|sz rest IH]; intros m p k Hm Hp; [done|].
  unfold dec_cut in *. simpl. rewrite !has_positive_cget.
  destruct (Z.ltb_spec 0 (cget m sz)); [|destruct (Z.ltb_spec 0 (cget p sz))].
  - apply IH; [|done]. rewrite cget_cdec. destruct (Z.eq_dec sz k) as [<-|]; lia.
  - apply IH; [done|]. rewrite cget_cdec. destruct (Z.eq_dec sz k) as [<-|]; lia.
  - apply IH; done.
Qed.


Lemma cut_step_nonneg (j : job) (d cl : Q) (i : nat) (cut : Q) (rs : run_state) :
  (forall k, 0 <= cget (job_metal rs) k /\ 0 <= cget (job_plastic rs) k) ->
  forall k, 0 <= cget (job_metal (fst (cut_step j d cl i cut rs))) k /\
            0 <= cget (job_plastic (fst (cut_step j d cl i cut rs))) k.
Proof.
  intros H. unfold cut_step.
  destruct (truthy _) as [fc|]; [|exact H].
  assert (H1 : forall k, 0 <= cget (dec_cut (job_metal rs, job_plastic rs) fc).1 k /\
                         0 <= cget (dec_cut (job_metal rs, job_plastic rs) fc).2 k).
  { intros k. destruct (H k). apply dec_cut_nonneg; done. }
  destruct (dec_cut _ fc) as [m1 p1]. simpl in H1.
  destruct (truthy _) as [mc|]; [|exact H1].
  assert (H2 : forall k, 0 <= cget (dec_cut (m1, p1) mc).1 k /\
                         0 <= cget (dec_cut (m1, p1) mc).2 k).
  { intros k. destruct (H1 k). apply dec_cut_nonneg; done. }
  destruct (dec_cut _ mc) as [m2 p2]. simpl in H2.
  destruct (Nat.eqb _ _); exact H2.
Qed.



(** The guarded decrement of the cut loop never drives a working count
    below zero: counters with no negative count keep none through any
    number of cuts, also when the loop stops on an error. *)
Theorem cut_loop_keeps_nonneg (j : job) (d cl : Q) (cs : list Q) (i : nat)
    (rs : run_state)
    (H : forall k, 0 <= cget (job_metal rs) k /\ 0 <= cget (job_plastic rs) k) :
  forall k, 0 <= cget (job_metal (fst (cut_loop j d cl i cs rs))) k /\
            0 <= cget (job_plastic (fst (cut_loop j d cl i cs rs))) k.
Proof.
  revert i rs H. induction cs as [|cut cs IH]; intros i rs H; simpl; [exact H|].
  pose proof (cut_step_nonneg j d cl i cut rs H) as Hs.
  destruct (cut_step j d cl i cut rs) as [rs' [e|]]; simpl in *; [exact Hs|].
  apply IH. exact Hs.
Qed.

Lemma cut_loop_keeps_nonneg_witness :
  0 <= cget (job_metal (fst (cut_loop demo_job 0 0 1 [3 # 4; 3 # 4; 3 # 4]%Q
          (mkRun demo_app (metal (inventory demo_app))
             (plastic (inventory demo_app)))))) 500000 /\
  0 <= cget (job_plastic (fst (cut_loop demo_job 0 0 1 [3 # 4; 3 # 4; 3 # 4]%Q
          (mkRun demo_app (metal (inventory demo_app))
             (plastic (inventory demo_app)))))) 500000.
Proof.
  apply cut_loop_keeps_nonneg.
  intros k. unfold cget. simpl. rewrite !lookup_insert, !lookup_empty.
  repeat case_decide; simpl; lia.
Defined.

(** ** The layout of the output lines *)

Lemma female_on_top_odd (i : nat) : Nat.eqb (Nat.modulo i 2) 1 = Nat.odd i.
Proof.
  induction i as [i IH] using lt_wf_ind.
  destruct i as [|[|i]]; [reflexivity|reflexivity|].
  replace (Nat.modulo (S (S i)) 2) with (Nat.modulo i 2).
  - rewrite IH by lia. unfold Nat.odd. simpl. reflexivity.
  - replace (S (S i)) with (i + 1 * 2)%nat by lia.
    rewrite Nat.Div0.mod_add. reflexivity.
Qed.

Lemma cut_step_layout (j : job) (d cl : Q) (n : nat) (cut : Q)
    (rs rs' : run_state) :
  cut_step j d cl (S n) cut rs = (rs', None) ->
  layout_ok n (self rs) -> layout_ok (S n) (self rs').
Proof.
  unfold cut_step. rewrite female_on_top_odd.
  intros H [Htop (t & s & B & Hb & HB)].
  destruct (truthy _) as [fc|]; [|discriminate].
  destruct (dec_cut _ fc) as [m1 p1].
  destruct (truthy _) as [mc|]; [|discriminate].
  destruct (dec_cut _ mc) as [m2 p2].
  unfold layout_ok. rewrite seq_S.
  destruct (Nat.odd (S n)) eqn:Hodd; inversion H; subst; simpl.
  - split.
    + apply Forall2_app; [done|]. constructor; [|constructor]. simpl. done.
    + exists t, s, (B ++ [MaleLine (S n) ((to_inches (sum_list fc) + d)
             - (knife_female j + knife_male j + 2 * cl))%Q mc]).
      rewrite Hb. split; [done|].
      apply Forall2_app; [done|]. constructor; [|constructor]. simpl. done.
  - split.
    + apply Forall2_app; [done|]. constructor; [|constructor]. simpl. done.
    + exists t, s, (B ++ [FemaleLine (S n) (to_inches (sum_list fc) + d)%Q fc]).
      rewrite Hb. split; [done|].
      apply Forall2_app; [done|]. constructor; [|constructor]. simpl. done.
Qed.

Lemma cut_loop_layout (j : job) (d cl : Q) (cs : list Q) :
  forall n rs rs',
  cut_loop j d cl (S n) cs rs = (rs', None) ->
  layout_ok n (self rs) -> layout_ok (n + length cs) (self rs').
Proof.
  induction cs as [|cut cs IH]; intros n rs rs' H Hl; simpl in H.
  - inversion H; subst. rewrite Nat.add_0_r. done.
  - destruct (cut_step j d cl (S n) cut rs) as [rs1 [e|]] eqn:Hs;
      [discriminate|].
    replace (n + length (cut :: cs))%nat with (S n + length cs)%nat
      by (simpl; lia).
    apply (IH (S n) rs1 rs' H).
    apply (cut_step_layout j d cl n cut rs rs1 Hs Hl).
Qed.

(** A run of [calculate_spacers] that ends without error leaves one top
    line per cut and, below the shoulder line, one bottom line per cut, in
    the order of the cuts: cut [i] puts its female line on top when [i] is
    odd and at the bottom when [i] is even, its male line on the other
    side. *)
Theorem calculate_spacers_layout (a a' : SpacerCalculatorApp) (j : job)
    (H : calculate_spacers a j = (a', None)) :
  Forall2 top_ok (seq 1 (length (cuts j))) (top_lines a') /\
  exists t s B, bottom_lines a' = ShoulderLine t s :: B /\
                Forall2 bottom_ok (seq 1 (length (cuts j))) B.
Proof.
  unfold calculate_spacers, run_spacers in H.
  set (cl := (thickness j * (clearance_pct j / 100))%Q) in H.
  set (a0 := set_used (set_lines a [] []) ∅) in H.
  set (rs0 := mkRun a0 (metal (inventory a0)) (plastic (inventory a0))) in H.
  destruct (shoulder_stage j cl rs0) as [rs1 [e|]] eqn:Hs; [discriminate|].
  destruct (cut_loop j (run_deflect_offset j) cl 1 (cuts j) rs1)
    as [rs2 e2] eqn:Hl.
  inversion H; subst a' e2.
  apply (cut_loop_layout j (run_deflect_offset j) cl (cuts j) 0 rs1 rs2 Hl).
  unfold shoulder_stage in Hs.
  destruct (truthy _) as [sc|]; [|discriminate].
  destruct (dec_shoulder _ _) as [m p]. inversion Hs; subst rs1. simpl.
  split; [constructor|].
  eexists _, _, []. split; [reflexivity|constructor].
Qed.

Lemma calculate_spacers_layout_witness :
  calculate_spacers demo_app demo_job =
    (fst (calculate_spacers demo_app demo_job), None) /\
  Forall2 top_ok (seq 1 (length (cuts demo_job)))
    (top_lines (fst (calculate_spacers demo_app demo_job))).
Proof.
  assert (H : calculate_spacers demo_app demo_job =
              (fst (calculate_spacers demo_app demo_job), None))
    by (vm_compute; reflexivity).
  split; [exact H|].
  exact (proj1 (calculate_spacers_layout _ _ _ H)).
Defined.

(** ** The usage summary *)

Lemma cget_counter_update (c : counter) (l : list Z) :
  forall k, cget (counter_update c l) k = cget c k + count k l.
Proof.
  revert c. induction l as [|x l IH]; intros c k; simpl.
  - unfold count. simpl. lia.
  - unfold counter_update in *. simpl. rewrite IH, count_cons.
    unfold cget at 1. rewrite lookup_insert.
    destruct (Z.eq_dec x k) as [<-|Hne].
    + rewrite decide_True by done. simpl. lia.
    + rewrite decide_False by done. fold (cget c k). lia.
Qed.

Lemma count_app (k : Z) (l1 l2 : list Z) :
  count k (l1 ++ l2) = count k l1 + count k l2.
Proof. unfold count. rewrite count_occ_app. lia. Qed.

(** [used_spacers] counts exactly the spacers the lines show. *)
Definition used_matches (a : SpacerCalculatorApp) : Prop :=
  forall k, cget (used_spacers a) k =
            count k (concat (map line_combo (all_lines a))).

Lemma cut_step_used (j : job) (d cl : Q) (i : nat) (cut : Q)
    (rs rs' : run_state) :
  cut_step j d cl i cut rs = (rs', None) ->
  used_matches (self rs) -> used_matches (self rs').
Proof.
  unfold cut_step, used_matches, all_lines. intros H Hu.
  destruct (truthy _) as [fc|]; [|discriminate].
  destruct (dec_cut _ fc) as [m1 p1].
  destruct (truthy _) as [mc|]; [|discriminate].
  destruct (dec_cut _ mc) as [m2 p2].
  destruct (Nat.eqb _ _); inversion H; subst; simpl; intros k;
    rewrite !cget_counter_update, Hu, !map_app, !concat_app, !count_app;
    simpl; rewrite !app_nil_r; lia.
Qed.

Lemma cut_loop_used (j : job) (d cl : Q) (cs : list Q) :
  forall i rs rs',
  cut_loop j d cl i cs rs = (rs', None) ->
  used_matches (self rs) -> used_matches (self rs').
Proof.
  induction cs as [|cut cs IH]; intros i rs rs' H Hu; simpl in H.
  - inversion H; subst. done.
  - destruct (cut_step j d cl i cut rs) as [rs1 [e|]] eqn:Hs; [discriminate|].
    apply (IH _ _ _ H). apply (cut_step_used _ _ _ _ _ _ _ Hs Hu).
Qed.

(** After a run of [calculate_spacers] that ends without error, the usage
    summary [used_spacers] holds, for each size, the number of times it
    appears in the combos of the shoulder, female and male lines. *)
Theorem calculate_spacers_used_matches_lines (a a' : SpacerCalculatorApp)
    (j : job) (H : calculate_spacers a j = (a', None)) :
  forall k, cget (used_spacers a') k =
            count k (concat (map line_combo (top_lines a' ++ bottom_lines a'))).
Proof.
  unfold calculate_spacers, run_spacers in H.
  set (cl := (thickness j * (clearance_pct j / 100))%Q) in H.
  set (a0 := set_used (set_lines a [] []) ∅) in H.
  set (rs0 := mkRun a0 (metal (inventory a0)) (plastic (inventory a0))) in H.
  destruct (shoulder_stage j cl rs0) as [rs1 [e|]] eqn:Hs; [discriminate|].
  destruct (cut_loop j (run_deflect_offset j) cl 1 (cuts j) rs1)
    as [rs2 e2] eqn:Hl.
  inversion H; subst a' e2.
  apply (cut_loop_used j (run_deflect_offset j) cl (cuts j) 1 rs1 rs2 Hl).
  unfold shoulder_stage in Hs.
  destruct (truthy _) as [sc|]; [|discriminate].
  destruct (dec_shoulder _ _) as [m p]. inversion Hs; subst rs1.
  unfold used_matches, all_lines. simpl. intros k.
  rewrite cget_counter_update, app_nil_r. unfold cget. rewrite lookup_empty.
  simpl. lia.
Qed.

Lemma calculate_spacers_used_matches_lines_witness :
  calculate_spacers demo_app demo_job =
    (fst (calculate_spacers demo_app demo_job), None) /\
  cget (used_spacers (fst (calculate_spacers demo_app demo_job))) 250000 =
  count 250000 (concat (map line_combo
    (top_lines (fst (calculate_spacers demo_app demo_job)) ++
     bottom_lines (fst (calculate_spacers demo_app demo_job))))).
Proof.
  assert (H : calculate_spacers demo_app demo_job =
              (fst (calculate_spacers demo_app demo_job), None))
    by (vm_compute; reflexivity).
  split; [exact H|].
  exact (calculate_spacers_used_matches_lines _ _ _ H 250000).
Defined.

(** ** Snake *)

(** A key never turns the snake back onto itself: the new direction is
    never the opposite of the old one. *)
Theorem snake_on_key_no_reverse (key : string) (d : Z * Z)
    (Hd : d <> (0, 0)) :
  snake_on_key key d <> (- d.1, - d.2).
Proof.
  destruct d as [a b]. simpl.
  unfold snake_on_key.
  repeat (destruct (String.eqb _ _); simpl);
    repeat case_bool_decide; simpl; intros Heq; injection Heq as Ea Eb;
    first [ apply Hd; f_equal; lia
          | match goal with Hn : (a, b) <> _ |- _ => apply Hn; f_equal; lia end ].
Qed.

Lemma snake_on_key_no_reverse_witness :
  snake_on_key "Left" (1, 0) <> (- (1, 0).1, - (1, 0).2).
Proof. apply snake_on_key_no_reverse. discriminate. Defined.

Lemma length_removelast_cons {A} (a : A) (l : list A) :
  length (removelast (a :: l)) = length l.
Proof.
  revert a. induction l as [|b l IH]; intros a; [done|].
  change (removelast (a :: b :: l)) with (a :: removelast (b :: l)).
  cbn [length]. rewrite IH. done.
Qed.

Lemma place_food_spec (draws s : list (Z * Z)) (f : Z * Z) :
  place_food draws s = Some f -> In f draws /\ f ∉ s.
Proof.
  unfold place_food. intros H.
  destruct (first_some_Some _ _ _ H) as (f' & Hin & Hf).
  case_bool_decide; [discriminate|]. inversion Hf; subst. done.
Qed.

Lemma in_grid_mod (a : Z) : 0 <= a mod grid_size < grid_size.
Proof. apply Z.mod_pos_bound. unfold grid_size. lia. Qed.

(** [move] keeps the snake a non-empty list of distinct cells on the
    grid: the head wraps around the edges, and a head that would land on
    the snake ends the game instead. *)
Theorem snake_move_wf (draws : list (Z * Z)) (st st' : snake_state)
    (Hwf : snake_wf st) (H : snake_move draws st = Some st') :
  snake_wf st'.
Proof.
  unfold snake_move in H.
  destruct (running st); simpl in H; [|inversion H; subst; done].
  destruct Hwf as (Hne & Hnd & Hgrid).
  destruct (snake st) as [|[x y] rest] eqn:Hs; [discriminate|].
  destruct (direction st) as [dx dy].
  set (nh := ((x + dx) mod grid_size, (y + dy) mod grid_size)) in H.
  assert (Hnh : (fun '(x, y) => 0 <= x < grid_size /\ 0 <= y < grid_size) nh)
    by (simpl; split; apply in_grid_mod).
  case_bool_decide as Hin.
  - inversion H; subst. unfold snake_wf. simpl. split; [discriminate|]. split; done.
  - case_bool_decide as Hf.
    + destruct (place_food _ _) as [f|]; [|discriminate].
      inversion H; subst. unfold snake_wf. simpl.
      split; [discriminate|]. split.
      * apply NoDup_cons_2; done.
      * constructor; done.
    + inversion H; subst. unfold snake_wf. simpl.
      assert (Hl : (x, y) :: rest <> []) by discriminate.
      pose proof (app_removelast_last (nh : Z * Z) Hl) as Heq.
      rewrite Heq in Hnd, Hgrid.
      apply NoDup_app in Hnd as (Hnd1 & Hnd2 & _).
      apply Forall_app in Hgrid as [Hg1 _].
      split; [discriminate|]. split.
      * apply NoDup_cons_2; [|done]. intros Hr. apply Hin. rewrite Heq.
        apply elem_of_app. left. done.
      * constructor; done.
Qed.

Lemma snake_move_wf_witness :
  snake_move [] (mkSnake [(5, 5); (4, 5); (3, 5)] (1, 0) (0, 0) 0 true 0 None)
  = Some (mkSnake [(6, 5); (5, 5); (4, 5)] (1, 0) (0, 0) 0 true 0 None) /\
  snake_wf (mkSnake [(6, 5); (5, 5); (4, 5)] (1, 0) (0, 0) 0 true 0 None).
Proof.
  assert (H : snake_move [] (mkSnake [(5, 5); (4, 5); (3, 5)] (1, 0) (0, 0) 0 true 0 None)
              = Some (mkSnake [(6, 5); (5, 5); (4, 5)] (1, 0) (0, 0) 0 true 0 None))
    by (vm_compute; reflexivity).
  assert (Hwf : snake_wf (mkSnake [(5, 5); (4, 5); (3, 5)] (1, 0) (0, 0) 0 true 0 None)).
  { unfold snake_wf. simpl. split; [discriminate|]. split.
    - repeat apply NoDup_cons_2; [set_solver|set_solver|set_solver|constructor].
    - repeat constructor; unfold grid_size; lia. }
  split; [exact H|].
  exact (snake_move_wf [] _ _ Hwf H).
Defined.

(** While the game goes on, a move either eats the food, adding one to
    the score and one cell to the snake, with the new food off the snake,
    or keeps score, length and food as they were. *)
Theorem snake_move_growth (draws : list (Z * Z)) (st st' : snake_state)
    (H : snake_move draws st = Some st') (Hrun : running st' = true) :
  (score st' = score st + 1 /\ length (snake st') = S (length (snake st)) /\
   food st' ∉ snake st') \/
  (score st' = score st /\ length (snake st') = length (snake st) /\
   food st' = food st).
Proof.
  unfold snake_move in H.
  destruct (running st); simpl in H; [|inversion H; subst; right; done].
  destruct (snake st) as [|[x y] rest] eqn:Hs; [discriminate|].
  destruct (direction st) as [dx dy].
  case_bool_decide as Hin.
  - inversion H; subst. discriminate.
  - case_bool_decide as Hf.
    + destruct (place_food _ _) as [f|] eqn:Hp; [|discriminate].
      inversion H; subst. simpl. left.
      split; [done|]. split; [done|].
      apply (place_food_spec _ _ _ Hp).
    + inversion H; subst. cbn [snake score food]. right.
      split; [done|]. split; [|done].
      change (match rest with [] => [] | _ :: _ => (x, y) :: removelast rest end)
        with (removelast ((x, y) :: rest)).
      cbn [length]. rewrite length_removelast_cons. done.
Qed.

Lemma snake_move_growth_witness :
  snake_move [(5, 5); (0, 0)]
    (mkSnake [(5, 5); (4, 5); (3, 5)] (1, 0) (6, 5) 0 true 0 None)
  = Some (mkSnake [(6, 5); (5, 5); (4, 5); (3, 5)] (1, 0) (0, 0) 1 true 0 None) /\
  ((1 = 0 + 1 /\ length [(6, 5); (5, 5); (4, 5); (3, 5)] =
                 S (length [(5, 5); (4, 5); (3, 5)]) /\
    (0, 0) ∉ [(6, 5); (5, 5); (4, 5); (3, 5)]) \/
   (1 = 0 /\ length [(6, 5); (5, 5); (4, 5); (3, 5)] =
             length [(5, 5); (4, 5); (3, 5)] /\ (0, 0) = (6, 5))).
Proof.
  assert (H : snake_move [(5, 5); (0, 0)]
                (mkSnake [(5, 5); (4, 5); (3, 5)] (1, 0) (6, 5) 0 true 0 None)
              = Some (mkSnake [(6, 5); (5, 5); (4, 5); (3, 5)] (1, 0) (0, 0)
                        1 true 0 None)) by (vm_compute; reflexivity).
  split; [exact H|].
  exact (snake_move_growth _ _ _ H eq_refl).
Defined.

(** Saving a score keeps the larger of the stored high score and the
    score. *)
Theorem save_snake_highscore_max (file : option Z) (sc : Z) :
  load_snake_highscore (save_snake_highscore file sc) =
  Z.max (load_snake_highscore file) sc.
Proof.
  unfold save_snake_highscore.
  destruct (Z.ltb_spec (load_snake_highscore file) sc); simpl; lia.
Qed.

(** A move keeps [highscore[0]] at most the stored high score and never
    lowers it, and when the game ends the final score is at most the new
    [highscore[0]]. *)
Theorem snake_move_highscore (draws : list (Z * Z)) (st st' : snake_state)
    (Hhs : highscore st <= load_snake_highscore (hs_file st))
    (H : snake_move draws st = Some st') :
  highscore st' <= load_snake_highscore (hs_file st') /\
  highscore st <= highscore st' /\
  (running st = true -> running st' = false -> score st' <= highscore st').
Proof.
  unfold snake_move in H.
  destruct (running st) eqn:Hr; simpl in H;
    [|inversion H; subst; split; [done|]; split; [lia|congruence]].
  destruct (snake st) as [|[x y] rest]; [discriminate|].
  destruct (direction st) as [dx dy].
  case_bool_decide as Hin.
  - inversion H; subst. simpl.
    destruct (Z.ltb_spec (highscore st) (score st)).
    + rewrite save_snake_highscore_max. lia.
    + lia.
  - case_bool_decide.
    + destruct (place_food _ _); [|discriminate].
      inversion H; subst. simpl. split; [done|]. split; [lia|discriminate].
    + inversion H; subst. simpl. split; [done|]. split; [lia|discriminate].
Qed.

Lemma snake_move_highscore_witness :
  snake_move [] (mkSnake [(5, 5); (6, 5); (6, 6); (5, 6)] (1, 0) (0, 0) 7 true 3 (Some 3))
  = Some (mkSnake [(5, 5); (6, 5); (6, 6); (5, 6)] (1, 0) (0, 0) 7 false 7 (Some 7)) /\
  (7 <= load_snake_highscore (Some 7) /\ 3 <= 7 /\
   (true = true -> false = false -> 7 <= 7)).
Proof.
  assert (H : snake_move [] (mkSnake [(5, 5); (6, 5); (6, 6); (5, 6)] (1, 0) (0, 0) 7 true 3 (Some 3))
              = Some (mkSnake [(5, 5); (6, 5); (6, 6); (5, 6)] (1, 0) (0, 0) 7 false 7 (Some 7)))
    by (vm_compute; reflexivity).
  assert (Hhs : highscore (mkSnake [(5, 5); (6, 5); (6, 6); (5, 6)] (1, 0) (0, 0)
                             7 true 3 (Some 3)) <=
                load_snake_highscore (hs_file (mkSnake [(5, 5); (6, 5); (6, 6); (5, 6)]
                                                 (1, 0) (0, 0) 7 true 3 (Some 3))))
    by (simpl; lia).
  split; [exact H|].
  exact (snake_move_highscore _ _ _ Hhs H).
Defined.

(** ** Tetris *)

Lemma can_move_shift (g : grid) (p : piece) (dx dy : Z) :
  can_move g (mkPiece (map (fun '(x, y) => (x + dx, y + dy)) (coords p))
                (color p) (shape_idx p)) 0 0 = can_move g p dx dy.
Proof.
  unfold can_move. simpl. induction (coords p) as [|[x y] cs IH]; [done|].
  simpl. rewrite IH, !Z.add_0_r. done.
Qed.

(** The test of [rotate_piece] is [can_move(0, 0)] at the new cells. *)
Lemma rotate_test_can_move (g : grid) (cs : list (Z * Z)) (c : string) (i : nat) :
  forallb (fun '(x, y) => (0 <=? x) && (x <? cols) && (y <? rows) &&
                          ((y <? 0) || negb (grid_at g y x))) cs =
  can_move g (mkPiece cs c i) 0 0.
Proof.
  unfold can_move. simpl. induction cs as [|[x y] cs IH]; [done|].
  simpl. rewrite IH, !Z.add_0_r. f_equal.
  destruct (grid_at g y x);
    repeat match goal with
           | |- context [Z.leb ?a ?b] => destruct (Z.leb_spec a b)
           | |- context [Z.ltb ?a ?b] => destruct (Z.ltb_spec a b)
           end; simpl; try reflexivity; lia.
Qed.

(** A piece in a legal position stays in one: [move_piece] moves it only
    to a position that passes [can_move], and [rotate_piece] either turns
    it into a position that passes the same test or puts it back. *)
Theorem tetris_moves_keep_legal (g : grid) (p : piece) (dx dy : Z)
    (H : can_move g p 0 0 = true) :
  can_move g (snd (move_piece g p dx dy)) 0 0 = true /\
  forall p', rotate_piece g p = Some p' -> can_move g p' 0 0 = true.
Proof.
  split.
  - unfold move_piece. destruct (can_move g p dx dy) eqn:Hm; simpl; [|done].
    rewrite can_move_shift. done.
  - intros p'. unfold rotate_piece.
    destruct (Nat.eqb _ _); [intros Hp; inversion Hp; subst; done|].
    destruct (coords p); [discriminate|].
    rewrite (rotate_test_can_move g _ (color p) (shape_idx p)).
    intros Hp.
    destruct (can_move g (mkPiece (rotate_coords _) _ _) 0 0) eqn:Hc;
      inversion Hp; subst; [exact Hc|exact H].
Qed.

Lemma tetris_moves_keep_legal_witness :
  can_move (repeat (repeat Empty 10) 20) (new_piece 1) 0 0 = true /\
  (can_move (repeat (repeat Empty 10) 20)
     (snd (move_piece (repeat (repeat Empty 10) 20) (new_piece 1) (-1) 0)) 0 0 = true /\
   forall p', rotate_piece (repeat (repeat Empty 10) 20) (new_piece 1) = Some p' ->
              can_move (repeat (repeat Empty 10) 20) p' 0 0 = true).
Proof.
  assert (H : can_move (repeat (repeat Empty 10) 20) (new_piece 1) 0 0 = true)
    by (vm_compute; reflexivity).
  split; [exact H|].
  exact (tetris_moves_keep_legal _ _ (-1) 0 H).
Defined.



Lemma place_cell_dims (g : grid) (c : cell) (xy : Z * Z) :
  grid_dims g -> grid_dims (place_cell g c xy).
Proof.
  unfold grid_dims, place_cell. destruct xy as [x y]. intros [Hlen Hrows].
  destruct (0 <=? y); [|done].
  destruct (g !! Z.to_nat y) as [row|] eqn:Hrow; [|done].
  split; [rewrite length_insert; done|].
  apply Forall_insert; [done|].
  rewrite length_insert. apply (Forall_lookup_1 _ _ _ _ Hrows Hrow).
Qed.

Lemma place_all_dims (c : cell) (cs : list (Z * Z)) :
  forall g, grid_dims g -> grid_dims (foldl (fun g xy => place_cell g c xy) g cs).
Proof.
  induction cs as [|xy cs IH]; intros g Hg; [done|].
  simpl. apply IH, place_cell_dims, Hg.
Qed.

Lemma clear_rows_dims (ys : list nat) :
  forall g lines, grid_dims g -> grid_dims (fst (clear_rows ys g lines)).
Proof.
  induction ys as [|y ys IH]; intros g lines Hg; [done|].
  simpl. destruct (row_full g y) eqn:Hf; [|apply IH, Hg].
  apply IH. destruct Hg as [Hlen Hrows].
  unfold row_full in Hf. destruct (g !! y) as [row|] eqn:Hy; [|discriminate].
  split.
  - simpl. rewrite length_delete by (rewrite Hy; done).
    assert (y < length g)%nat by (apply lookup_lt_Some with row; done). lia.
  - constructor; [reflexivity|]. apply Forall_delete. done.
Qed.

(** [freeze_piece] keeps the grid at [rows] rows of [cols] cells: every
    deleted row is replaced by an empty one at the top. *)
Theorem freeze_piece_keeps_dims (idx : nat) (st st' : tetris_state)
    (Hg : grid_dims (tgrid st)) (H : freeze_piece idx st = Some st') :
  grid_dims (tgrid st').
Proof.
  unfold freeze_piece in H.
  pose proof (place_all_dims (Filled (color (tpiece st))) (coords (tpiece st))
                (tgrid st) Hg) as H1.
  unfold clear_full_rows in H.
  pose proof (clear_rows_dims (rev (seq 0 (Z.to_nat rows))) _ 0 H1) as H2.
  destruct (clear_rows _ _ 0) as [g2 lines]. simpl in H2.
  destruct (nth_error _ lines); [|discriminate].
  inversion H; subst. done.
Qed.

Lemma freeze_piece_keeps_dims_witness :
  let st := mkTetris (repeat (repeat Empty 10) 20) (new_piece 1) (new_piece 2) 0 true in
  exists st', freeze_piece 3 st = Some st' /\ grid_dims (tgrid st').
Proof.
  intros st.
  assert (Hg : grid_dims (tgrid st))
    by (split; [reflexivity|simpl; repeat constructor]).
  assert (H : freeze_piece 3 st = Some (default st (freeze_piece 3 st)))
    by (vm_compute; reflexivity).
  exists (default st (freeze_piece 3 st)). split; [exact H|].
  exact (freeze_piece_keeps_dims 3 st _ Hg H).
Defined.

(** Rows at or below the highest index still to visit are never touched
    again. *)
Lemma clear_rows_frozen (ys : list nat) (z : nat) :
  Forall (fun w => (w < z)%nat) ys ->
  forall g lines, fst (clear_rows ys g lines) !! z = g !! z.
Proof.
  induction ys as [|y ys IH]; intros Hys g lines; [done|].
  apply Forall_cons in Hys as [Hy Hys].
  simpl. destruct (row_full g y); rewrite IH by done; [|done].
  destruct z as [|z]; [lia|].
  simpl. apply list_lookup_delete_ge. lia.
Qed.

(** The clearing loop of [freeze_piece] does not clear two full rows in a
    row: after [del grid[y]] the row above moves down to index [y], and
    the loop goes on at [y - 1].  So when the two bottom rows are full
    once the piece is placed, the bottom row is still full afterwards. *)
Theorem clear_full_rows_keeps_bottom_pair (g : grid)
    (H19 : row_full g 19 = true) (H18 : row_full g 18 = true) :
  row_full (fst (clear_full_rows g)) 19 = true.
Proof.
  unfold clear_full_rows.
  replace (rev (seq 0 (Z.to_nat rows))) with (19%nat :: rev (seq 0 19))
    by reflexivity.
  cbn [clear_rows]. rewrite H19.
  unfold row_full in *. rewrite clear_rows_frozen.
  - replace ((repeat Empty (Z.to_nat cols) :: delete 19%nat g) !! 19%nat)
      with (delete 19%nat g !! 18%nat) by reflexivity.
    rewrite list_lookup_delete_lt by lia. exact H18.
  - apply Forall_rev, Forall_seq. lia.
Qed.

Lemma clear_full_rows_keeps_bottom_pair_witness :
  row_full (repeat (repeat Empty 10) 18 ++ repeat (repeat (Filled "#bbbbbb") 10) 2) 19 = true /\
  row_full (repeat (repeat Empty 10) 18 ++ repeat (repeat (Filled "#bbbbbb") 10) 2) 18 = true /\
  row_full (fst (clear_full_rows
    (repeat (repeat Empty 10) 18 ++ repeat (repeat (Filled "#bbbbbb") 10) 2))) 19 = true.
Proof.
  assert (H19 : row_full (repeat (repeat Empty 10) 18 ++
                          repeat (repeat (Filled "#bbbbbb") 10) 2) 19 = true)
    by (vm_compute; reflexivity).
  assert (H18 : row_full (repeat (repeat Empty 10) 18 ++
                          repeat (repeat (Filled "#bbbbbb") 10) 2) 18 = true)
    by (vm_compute; reflexivity).
  split; [exact H19|]. split; [exact H18|].
  exact (clear_full_rows_keeps_bottom_pair _ H19 H18).
Defined.
